(** * Least-squares sphere fit of the fiducial notebook

    Verification of the sphere-fitting cell of
    [Python/33_Segmentation_Thresholding_Edge_Detection.ipynb]:

<<
    A = np.ones((len(physical_points),4))
    b = np.zeros(len(physical_points))

    for row, point in enumerate(physical_points):
        A[row,0:3] = -2*np.array(point)
        b[row] = -linalg.norm(point)**2

    res,_,_,_ = linalg.lstsq(A,b)

    print("The sphere's radius is: {0:.2f}mm".format(
          np.sqrt(linalg.norm(res[0:3])**2 - res[3])))
>>

    Floating-point numbers are read as real numbers (exact arithmetic);
    the only non-real value the cell can produce, the NaN that [np.sqrt]
    returns on a negative argument, is kept as a value of its own. *)

From Stdlib Require Import Reals Lra Lia List ZArith Bool Permutation.
Import ListNotations.

Open Scope R_scope.

(** ** Arrays *)

(** A one-dimensional array of floats, and a two-dimensional one stored as
    the list of its rows. *)
Definition vec := list R.
Definition matrix := list vec.

(** A physical point, the 3-tuple [TransformIndexToPhysicalPoint] returns
    for a 3D image. *)
Record Point3D := mkPoint { px : R; py : R; pz : R }.

(** [np.array(point)] *)
Definition np_array (p : Point3D) : vec := [px p; py p; pz p].

(** [np.ones((m,n))] and [np.zeros(m)] *)
Definition np_ones (m n : nat) : matrix := repeat (repeat 1 n) m.
Definition np_zeros (m : nat) : vec := repeat 0 m.

(** Elementwise sum.  In the program both operands always have the same
    shape; here a shorter operand counts as padded with zeros, which makes
    the operation total. *)
Fixpoint vadd (u v : vec) : vec :=
  match u, v with
  | [], _ => v
  | _, [] => u
  | x :: u', y :: v' => (x + y) :: vadd u' v'
  end.

(** [a * v] for a scalar [a] *)
Definition vscale (a : R) (v : vec) : vec := map (Rmult a) v.

Definition vsub (u v : vec) : vec := vadd u (vscale (-1) v).

(** Inner product of two vectors. *)
Fixpoint dot (u v : vec) : R :=
  match u, v with
  | x :: u', y :: v' => x * y + dot u' v'
  | _, _ => 0
  end.

(** [linalg.norm(v)], the Euclidean norm *)
Definition norm (v : vec) : R := sqrt (dot v v).

(** [A.dot(v)]: one inner product per row. *)
Definition matvec (A : matrix) (v : vec) : vec := map (fun r => dot r v) A.

(** Column [j] of [A], and its first [n] columns. *)
Definition col (j : nat) (A : matrix) : vec := map (fun r => nth j r 0) A.
Definition columns (n : nat) (A : matrix) : list vec :=
  map (fun j => col j A) (seq 0 n).

(** [sum(c_j * v_j)]: the linear combination of the vectors [cs] with
    coefficients [u]. *)
Fixpoint lincomb (cs : list vec) (u : vec) : vec :=
  match cs, u with
  | c :: cs', a :: u' => vadd (vscale a c) (lincomb cs' u')
  | _, _ => []
  end.

(** [l[i] = x].  The index is always in range in the program (numpy raises
    IndexError otherwise); out of range the list is left as it is. *)
Fixpoint set_item {X : Type} (i : nat) (x : X) (l : list X) : list X :=
  match l, i with
  | [], _ => []
  | _ :: t, O => x :: t
  | h :: t, S j => h :: set_item j x t
  end.

(** [r[0:3] = v] on a row [r], for [v] of shape (3,). *)
Definition assign_0_3 (v r : vec) : vec := firstn 3 v ++ skipn 3 r.

(** [enumerate(l)] *)
Definition enumerate {X : Type} (l : list X) : list (nat * X) :=
  combine (seq 0 (length l)) l.

(** ** The linear system *)

(** One iteration of the [for row, point in enumerate(physical_points)]
    loop on the pair [(A, b)]. *)
Definition loop_body (st : matrix * vec) (it : nat * Point3D) : matrix * vec :=
  let '(A, b) := st in
  let '(row, point) := it in
  (set_item row (assign_0_3 (vscale (-2) (np_array point)) (nth row A [])) A,
   set_item row (- norm (np_array point) ^ 2) b).

(** The arrays [A] and [b] when the loop is over. *)
Definition build_system (physical_points : list Point3D) : matrix * vec :=
  fold_left loop_body (enumerate physical_points)
    (np_ones (length physical_points) 4, np_zeros (length physical_points)).

Definition system_A (pts : list Point3D) : matrix := fst (build_system pts).
Definition system_b (pts : list Point3D) : vec := snd (build_system pts).

(** The system as the specification words it: the row and the right-hand
    side entry of a point. *)
Definition spec_row (p : Point3D) : vec := [-2 * px p; -2 * py p; -2 * pz p; 1].
Definition spec_rhs (p : Point3D) : R :=
  - (px p * px p + py p * py p + pz p * pz p).

(** ** The least-squares solver

    [linalg.lstsq] is SciPy's routine: the cell calls it and the repository
    does not contain it.  Its contract is that the returned vector minimises
    the 2-norm of [b - A x] and that, among the minimisers, it is the one of
    least norm (the pseudoinverse solution, computed through the singular
    value decomposition).  Nothing in it rejects a rank-deficient [A].  In
    exact arithmetic the contract fixes the result, so any function that
    meets it can stand for the routine; the one below projects by
    Gram-Schmidt. *)

(** Modelled from the spec: the projection step of the absent
    [linalg.lstsq] (solve [A u ~ b] in the least-squares sense).  It gives
    coefficients [u] such that [b - lincomb cs u] is orthogonal to every
    vector of [cs]; a vector that depends linearly on the ones after it gets
    coefficient 0. *)
Fixpoint ls_coeffs (cs : list vec) (b : vec) : vec :=
  match cs with
  | [] => []
  | c :: cs' =>
      let w := ls_coeffs cs' c in
      let c' := vsub c (lincomb cs' w) in
      let u := ls_coeffs cs' b in
      let r := vsub b (lincomb cs' u) in
      if Req_EM_T (dot c' c') 0 then 0 :: u
      else let t := dot c' r / dot c' c' in
           t :: vsub u (vscale t w)
  end.

(** Modelled from the spec: [linalg.lstsq(A,b)[0]], absent from the
    repository, for [A] of shape (m,n): the solution of [A u ~ b] in the
    least-squares sense that the pseudoinverse gives.  A least-squares
    solution [u0] is projected on the span of the rows of [A], which leaves
    [A u0] as it is and removes the part of [u0] in the null space.  The
    list of rows does not carry [n] when [m = 0]; the zeros in front give
    the result its [n] entries in that case too. *)
Definition lstsq (n : nat) (A : matrix) (b : vec) : vec :=
  let u0 := ls_coeffs (columns n A) b in
  vadd (np_zeros n) (lincomb A (ls_coeffs A u0)).

(** [A v - b] and the objective [|A v - b|^2]. *)
Definition residual (A : matrix) (b v : vec) : vec := vsub (matvec A v) b.
Definition ssr (A : matrix) (b v : vec) : R :=
  dot (residual A b v) (residual A b v).

(** [A] has shape (m,n). *)
Definition has_shape (n : nat) (A : matrix) : Prop :=
  Forall (fun r => length r = n) A.

(** [u] minimises [|A v - b|^2] over the vectors with [n] entries. *)
Definition least_squares (n : nat) (A : matrix) (b u : vec) : Prop :=
  length u = n /\ forall v, length v = n -> ssr A b u <= ssr A b v.

(** The contract of [linalg.lstsq]. *)
Definition lstsq_contract (n : nat) (A : matrix) (b u : vec) : Prop :=
  least_squares n A b u /\
  forall v, least_squares n A b v -> dot u u <= dot v v.

(** The normal equations [A^T (A u - b) = 0], column by column. *)
Definition normal_equations (n : nat) (A : matrix) (b u : vec) : Prop :=
  forall c, In c (columns n A) -> dot c (residual A b u) = 0.

(** [A v = 0] only for [v = 0]. *)
Definition full_column_rank (n : nat) (A : matrix) : Prop :=
  forall v, length v = n -> matvec A v = np_zeros (length A) -> v = np_zeros n.

(** [A] is rank-deficient: its columns are linearly dependent, that is,
    [A z = 0] for some [z <> 0]. *)
Definition rank_deficient (n : nat) (A : matrix) : Prop :=
  exists z, length z = n /\ z <> np_zeros n
            /\ matvec A z = np_zeros (length A).

(** ** Radius and centre *)

(** A float that [np.sqrt] returns: a real number or NaN. *)
Inductive npfloat : Type :=
  | Num (x : R)
  | NaN.

(** [np.sqrt(x)]: NaN (and a RuntimeWarning, no exception) for [x < 0]. *)
Definition np_sqrt (x : R) : npfloat :=
  if Rlt_dec x 0 then NaN else Num (sqrt x).

(** [linalg.norm(res[0:3])**2 - res[3]] *)
Definition radicand (res : vec) : R := norm (firstn 3 res) ^ 2 - nth 3 res 0.

(** The result of a fit: the centre [res[0:3]] and the radius the cell
    prints (before it is formatted with two decimals). *)
Record SphereFitResult := mkFit { center : vec; radius : npfloat }.

Definition report (res : vec) : SphereFitResult :=
  {| center := firstn 3 res; radius := np_sqrt (radicand res) |}.

(** [res] of the cell. *)
Definition solve (physical_points : list Point3D) : vec :=
  lstsq 4 (system_A physical_points) (system_b physical_points).

(** The errors of the specification's taxonomy, and the outcome of a call in
    its terms.  The cell has no [raise]: it always ends in [Returned]. *)
Inductive FitError : Type :=
  | InsufficientDataError
  | SingularSystemError
  | DegenerateFitError.

Inductive outcome : Type :=
  | Returned (r : SphereFitResult)
  | Raised (e : FitError).

Definition fit (physical_points : list Point3D) : outcome :=
  Returned (report (solve physical_points)).

(** ** Translations *)

Definition translate (t p : Point3D) : Point3D :=
  mkPoint (px p + px t) (py p + py t) (pz p + pz t).

(** The unknowns of the sphere [(c + t, r)] from those of [(c, r)]. *)
Definition shift (t : Point3D) (u : vec) : vec :=
  match u with
  | [cx; cy; cz; k] =>
      [cx + px t; cy + py t; cz + pz t;
       k + 2 * (cx * px t + cy * py t + cz * pz t)
         + (px t * px t + py t * py t + pz t * pz t)]
  | _ => u
  end.

(** The linear part of [shift (-t)]. *)
Definition unshift_lin (t : Point3D) (u : vec) : vec :=
  match u with
  | [a; b; c; d] => [a; b; c; d - 2 * (a * px t + b * py t + c * pz t)]
  | _ => u
  end.

Definition opp_point (t : Point3D) : Point3D := mkPoint (- px t) (- py t) (- pz t).

(** ** Geometry of the fit *)

(** Sum of a list of reals. *)
Definition Rsum (l : list R) : R := fold_right Rplus 0 l.

(** Squared distance of the point [p] to the centre [c = res[0:3]]. *)
Definition sqdist (c : vec) (p : Point3D) : R :=
  (px p - nth 0 c 0) * (px p - nth 0 c 0)
  + (py p - nth 1 c 0) * (py p - nth 1 c 0)
  + (pz p - nth 2 c 0) * (pz p - nth 2 c 0).

(** [p] lies on the sphere of centre [c] and radius [r]. *)
Definition on_sphere (c : Point3D) (r : R) (p : Point3D) : Prop :=
  sqdist (np_array c) p = r * r.

(** The algebraic error of the sphere of centre [c] and squared radius
    [rho] on a cloud: the sum of [(|p - c|^2 - rho)^2]. *)
Definition algebraic_error (pts : list Point3D) (c : vec) (rho : R) : R :=
  Rsum (map (fun p => (sqdist c p - rho) * (sqdist c p - rho)) pts).

(** The points lie in one plane [n . p = d], [n <> 0]. *)
Definition coplanar (pts : list Point3D) : Prop :=
  exists nx ny nz d,
    ~ (nx = 0 /\ ny = 0 /\ nz = 0)
    /\ forall p, In p pts -> nx * px p + ny * py p + nz * pz p = d.

(** Scaling a point by [s], and the unknowns of the sphere [(s c, |s| r)]
    from those of [(c, r)]. *)
Definition scale_point (s : R) (p : Point3D) : Point3D :=
  mkPoint (s * px p) (s * py p) (s * pz p).

Definition scale_unknowns (s : R) (u : vec) : vec :=
  match u with
  | [cx; cy; cz; k] => [s * cx; s * cy; s * cz; s * s * k]
  | _ => u
  end.

(** ** The region of interest

    The cell that builds the mask of the region of interest:

<<
    mask = sitk.Image(spherical_fiducials_image.GetSize(), sitk.sitkUInt8)
    mask.CopyInformation(spherical_fiducials_image)
    for x in range(roi[0][0], roi[0][1]+1):
        for y in range(roi[1][0], roi[1][1]+1):
            for z in range(roi[2][0], roi[2][1]+1):
                mask[x,y,z] = mask_value
>>

    and the one that collects the intensities for the histogram:

<<
    roi_intensity_values = intensity_values[roi[2][0]:roi[2][1],
                                            roi[1][0]:roi[1][1],
                                            roi[0][0]:roi[0][1]].flatten()
>> *)

(** [((min_x,max_x), (min_y,max_y), (min_z,max_z))] *)
Definition ROI : Type := (Z * Z) * (Z * Z) * (Z * Z).

(** An image: its size and the value of each voxel. *)
Record Image := mkImage { img_size : Z * Z * Z; voxel : Z -> Z -> Z -> Z }.

(** [sitk.Image(size, sitk.sitkUInt8)]: every voxel is 0. *)
Definition new_image (size : Z * Z * Z) : Image :=
  mkImage size (fun _ _ _ => 0%Z).

(** The index [(x,y,z)] is one of the image. *)
Definition inside (im : Image) (x y z : Z) : bool :=
  let '(sx, sy, sz) := img_size im in
  (Z.leb 0 x && Z.ltb x sx && Z.leb 0 y && Z.ltb y sy
   && Z.leb 0 z && Z.ltb z sz)%bool.

(** A negative index counts from the end of its axis: SimpleITK adds the
    size of the axis to it. *)
Definition wrap_index (s i : Z) : Z :=
  if (i <? 0)%Z then (s + i)%Z else i.

(** [im[x,y,z] = v]; [None] when the index, negative ones counted from the
    end, is out of bounds and the statement raises IndexError. *)
Definition set_pixel (im : Image) (x y z v : Z) : option Image :=
  let '(sx, sy, sz) := img_size im in
  let wx := wrap_index sx x in
  let wy := wrap_index sy y in
  let wz := wrap_index sz z in
  if inside im wx wy wz
  then Some (mkImage (img_size im)
               (fun x' y' z' =>
                  if (Z.eqb x' wx && Z.eqb y' wy && Z.eqb z' wz)%bool then v
                  else voxel im x' y' z'))
  else None.

(** [range(a, b)] *)
Definition py_range (a b : Z) : list Z :=
  map (fun i => (a + Z.of_nat i)%Z) (seq 0 (Z.to_nat (b - a))).

(** [for x in l: body], on a state the body may fail to update: the loop
    stops at the first exception. *)
Fixpoint for_each {S X : Type} (l : list X) (body : X -> S -> option S)
         (s : S) : option S :=
  match l with
  | [] => Some s
  | x :: l' =>
      match body x s with
      | Some s' => for_each l' body s'
      | None => None
      end
  end.

Definition mask_value : Z := 255%Z.

(** The mask when the three loops are over, or [None] when a write
    raised. *)
Definition build_mask (size : Z * Z * Z) (roi : ROI) : option Image :=
  let '((x0, x1), (y0, y1), (z0, z1)) := roi in
  for_each (py_range x0 (x1 + 1)) (fun x m =>
    for_each (py_range y0 (y1 + 1)) (fun y m =>
      for_each (py_range z0 (z1 + 1)) (fun z m =>
        set_pixel m x y z mask_value) m) m)
    (new_image size).

(** The bound [i] of a slice of a sequence of length [len], as Python
    adjusts it: a negative bound counts from the end, and the result is
    clipped to [0 .. len]. *)
Definition py_index (len i : Z) : Z :=
  if (i <? 0)%Z then Z.max (i + len) 0 else Z.min i len.

(** [l[a:b]] *)
Definition py_slice {X : Type} (a b : Z) (l : list X) : list X :=
  let len := Z.of_nat (length l) in
  let start := py_index len a in
  let stop := py_index len b in
  firstn (Z.to_nat (stop - start)) (skipn (Z.to_nat start) l).

(** [arr[z0:z1, y0:y1, x0:x1].flatten()] for the array [arr], indexed
    [arr[z][y][x]] as [GetArrayFromImage] returns it. *)
Definition roi_values (arr : list (list (list Z))) (roi : ROI) : list Z :=
  let '((x0, x1), (y0, y1), (z0, z1)) := roi in
  concat (concat (map (fun plane => map (py_slice x0 x1) (py_slice y0 y1 plane))
                      (py_slice z0 z1 arr))).

(** [arr] has shape [(sz, sy, sx)]. *)
Definition has_shape3 (sz sy sx : nat) (arr : list (list (list Z))) : Prop :=
  length arr = sz
  /\ Forall (fun plane => length plane = sy
                          /\ Forall (fun row => length row = sx) plane) arr.

(** The voxel [(x,y,z)] is in the closed box of the region. *)
Definition in_roi (roi : ROI) (x y z : Z) : bool :=
  let '((x0, x1), (y0, y1), (z0, z1)) := roi in
  (Z.leb x0 x && Z.leb x x1 && Z.leb y0 y && Z.leb y y1
   && Z.leb z0 z && Z.leb z z1)%bool.

(** ** Point clouds used as examples *)

Definition unit_cloud : list Point3D :=
  [mkPoint 1 0 0; mkPoint (-1) 0 0; mkPoint 0 1 0; mkPoint 0 0 1].

Definition single_cloud : list Point3D := [mkPoint 1 0 0].

Definition planar_cloud : list Point3D :=
  [mkPoint 1 0 0; mkPoint (-1) 0 0; mkPoint 0 1 0; mkPoint 0 (-1) 0].

(** * Proofs *)

(** ** Vector algebra

  The inner product is bilinear and symmetric whatever the lengths of its
  arguments are. *)
Section VectorAlgebra.

Lemma dot_nil_r (u : vec) : dot u [] = 0.
Proof. destruct u; reflexivity. Qed.

Lemma dot_comm (u v : vec) : dot u v = dot v u.
Proof.
  revert v; induction u as [|x u IH]; intros [|y v]; simpl; trivial.
  rewrite IH; ring.
Qed.

Lemma dot_vadd_l (u v w : vec) : dot (vadd u v) w = dot u w + dot v w.
Proof.
  revert v w; induction u as [|x u IH]; intros [|y v] [|z w]; simpl;
    try ring.
  rewrite IH; ring.
Qed.

Lemma dot_vscale_l (a : R) (u w : vec) : dot (vscale a u) w = a * dot u w.
Proof.
  revert w; induction u as [|x u IH]; intros [|z w]; simpl; try ring.
  fold (vscale a u); rewrite IH; ring.
Qed.

Lemma dot_vsub_l (u v w : vec) : dot (vsub u v) w = dot u w - dot v w.
Proof. unfold vsub; rewrite dot_vadd_l, dot_vscale_l; ring. Qed.

Lemma dot_vadd_r (u v w : vec) : dot w (vadd u v) = dot w u + dot w v.
Proof. rewrite (dot_comm w), dot_vadd_l, !(dot_comm w); ring. Qed.

Lemma dot_vscale_r (a : R) (u w : vec) : dot w (vscale a u) = a * dot w u.
Proof. rewrite (dot_comm w), dot_vscale_l, (dot_comm w); ring. Qed.

Lemma dot_vsub_r (u v w : vec) : dot w (vsub u v) = dot w u - dot w v.
Proof. rewrite (dot_comm w), dot_vsub_l, !(dot_comm w); ring. Qed.

Lemma dot_zeros_l (n : nat) (w : vec) : dot (np_zeros n) w = 0.
Proof.
  revert w; induction n as [|n IH]; intros [|z w]; simpl; trivial.
  fold (np_zeros n); rewrite IH; ring.
Qed.

Lemma dot_self_nonneg (u : vec) : 0 <= dot u u.
Proof. induction u as [|x u IH]; simpl; nra. Qed.

(** A vector of norm 0 holds zeros only. *)
Lemma dot_self_zero (u : vec) : dot u u = 0 -> u = np_zeros (length u).
Proof.
  induction u as [|x u IH]; simpl; intros H; trivial.
  pose proof (dot_self_nonneg u) as Hu.
  assert (x = 0) by nra.
  assert (dot u u = 0) as Hz by nra.
  subst x; change (0 :: u = 0 :: np_zeros (length u)).
  f_equal; exact (IH Hz).
Qed.

Lemma dot_self_zero_l (u w : vec) : dot u u = 0 -> dot u w = 0.
Proof.
  intros H; rewrite (dot_self_zero u H); apply dot_zeros_l.
Qed.

Lemma length_vadd (u v : vec) :
  length (vadd u v) = Nat.max (length u) (length v).
Proof.
  revert v; induction u as [|x u IH]; intros [|y v]; simpl; auto.
Qed.

Lemma length_vscale (a : R) (u : vec) : length (vscale a u) = length u.
Proof. apply length_map. Qed.

Lemma length_vsub (u v : vec) :
  length (vsub u v) = Nat.max (length u) (length v).
Proof. unfold vsub; rewrite length_vadd, length_vscale; trivial. Qed.

Lemma length_np_zeros (n : nat) : length (np_zeros n) = n.
Proof. apply repeat_length. Qed.

Lemma vadd_map {X : Type} (f g : X -> R) (l : list X) :
  vadd (map f l) (map g l) = map (fun x => f x + g x) l.
Proof. induction l as [|x l IH]; simpl; f_equal; trivial. Qed.

Lemma vsub_map {X : Type} (f g : X -> R) (l : list X) :
  vsub (map f l) (map g l) = map (fun x => f x + -1 * g x) l.
Proof. unfold vsub, vscale; rewrite map_map; apply vadd_map. Qed.

(** Two vectors of the same length at distance 0 are equal. *)
Lemma vsub_norm_zero (u v : vec) :
  length u = length v -> dot (vsub u v) (vsub u v) = 0 -> u = v.
Proof.
  revert v; induction u as [|x u IH]; intros [|y v]; simpl; try discriminate;
    trivial.
  intros Hl H; injection Hl as Hl.
  fold (vscale (-1) v) in H; fold (vsub u v) in H.
  pose proof (dot_self_nonneg (vsub u v)) as Hu.
  assert (x = y) by nra.
  assert (dot (vsub u v) (vsub u v) = 0) by nra.
  subst y; f_equal; auto.
Qed.

(** [x . sum(u_j c_j) = sum(u_j (x . c_j))] *)
Lemma dot_lincomb (x : vec) (cs : list vec) (u : vec) :
  dot x (lincomb cs u) = dot u (map (dot x) cs).
Proof.
  revert u; induction cs as [|c cs IH]; intros [|a u]; simpl;
    try apply dot_nil_r; trivial.
  rewrite dot_vadd_r, dot_vscale_r, IH; ring.
Qed.

Lemma norm_sq (v : vec) : norm v ^ 2 = dot v v.
Proof.
  unfold norm; simpl; rewrite Rmult_1_r.
  apply sqrt_sqrt, dot_self_nonneg.
Qed.

End VectorAlgebra.

(** ** The construction loop *)
Section Construction.

Lemma set_item_app {X : Type} (pre : list X) (x y : X) (post : list X) :
  set_item (length pre) x (pre ++ y :: post) = pre ++ x :: post.
Proof. induction pre as [|h pre IH]; simpl; f_equal; trivial. Qed.

Lemma nth_app_here {X : Type} (pre : list X) (y d : X) (post : list X) :
  nth (length pre) (pre ++ y :: post) d = y.
Proof. induction pre as [|h pre IH]; simpl; trivial. Qed.

Lemma rhs_entry (p : Point3D) : - norm (np_array p) ^ 2 = spec_rhs p.
Proof. rewrite norm_sq; unfold spec_rhs, np_array; simpl; ring. Qed.

Lemma row_entry (p : Point3D) :
  assign_0_3 (vscale (-2) (np_array p)) (repeat 1 4%nat) = spec_row p.
Proof. reflexivity. Qed.

(** The iteration on row [k] fills that row and that entry. *)
Lemma loop_body_at (k : nat) (doneA restA : matrix) (doneb restb : vec)
      (p : Point3D) :
  length doneA = k -> length doneb = k ->
  loop_body (doneA ++ repeat 1 4%nat :: restA, doneb ++ 0 :: restb) (k, p)
  = (doneA ++ spec_row p :: restA, doneb ++ spec_rhs p :: restb).
Proof.
  intros <- Hb; unfold loop_body.
  rewrite nth_app_here, set_item_app, row_entry, rhs_entry.
  rewrite <- Hb, set_item_app; reflexivity.
Qed.

(** Loop invariant: when the rows before [k] are done and the points [l]
    are left, the loop finishes the rows of [l] and touches nothing
    else. *)
Lemma loop_from (l : list Point3D) :
  forall (k : nat) (doneA : matrix) (doneb : vec),
    length doneA = k -> length doneb = k ->
    fold_left loop_body (combine (seq k (length l)) l)
      (doneA ++ np_ones (length l) 4, doneb ++ np_zeros (length l))
    = (doneA ++ map spec_row l, doneb ++ map spec_rhs l).
Proof.
  induction l as [|p l IH]; intros k doneA doneb HA Hb; trivial.
  cbn [length seq combine fold_left map].
  change (np_ones (S (length l)) 4)
    with (repeat 1 4%nat :: np_ones (length l) 4).
  change (np_zeros (S (length l))) with (0 :: np_zeros (length l)).
  rewrite (loop_body_at k) by assumption.
  specialize (IH (S k) (doneA ++ [spec_row p]) (doneb ++ [spec_rhs p])).
  rewrite <- !app_assoc in IH; apply IH; rewrite length_app; simpl; lia.
Qed.

Lemma build_system_eq (pts : list Point3D) :
  build_system pts = (map spec_row pts, map spec_rhs pts).
Proof. exact (loop_from pts 0 [] [] eq_refl eq_refl). Qed.

Lemma system_A_eq (pts : list Point3D) : system_A pts = map spec_row pts.
Proof. unfold system_A; rewrite build_system_eq; reflexivity. Qed.

Lemma system_b_eq (pts : list Point3D) : system_b pts = map spec_rhs pts.
Proof. unfold system_b; rewrite build_system_eq; reflexivity. Qed.

Lemma system_shape (pts : list Point3D) : has_shape 4 (system_A pts).
Proof.
  rewrite system_A_eq; apply Forall_forall; intros r Hr.
  apply in_map_iff in Hr as [p [<- _]]; reflexivity.
Qed.

End Construction.

(** ** Projection by Gram-Schmidt *)
Section Projection.

Lemma ls_coeffs_length (cs : list vec) :
  forall b, length (ls_coeffs cs b) = length cs.
Proof.
  induction cs as [|c cs IH]; intros b; cbn [ls_coeffs]; trivial.
  destruct (Req_EM_T _ 0); cbn [length]; f_equal; trivial.
  rewrite length_vsub, length_vscale, !IH; lia.
Qed.

(** A vector orthogonal to every [c] of [cs] is orthogonal to their
    linear combinations. *)
Lemma dot_lincomb_orth (y : vec) (cs : list vec) :
  (forall c, In c cs -> dot y c = 0) ->
  forall u, dot y (lincomb cs u) = 0.
Proof.
  induction cs as [|c cs IH]; intros H [|a u]; cbn [lincomb];
    try apply dot_nil_r.
  rewrite dot_vadd_r, dot_vscale_r, (H c) by (simpl; auto).
  rewrite IH; [ring|].
  intros c1 H1; apply H; simpl; auto.
Qed.

Lemma lincomb_vsub_dot (x : vec) (cs : list vec) (u w : vec) (t : R) :
  dot x (lincomb cs (vsub u (vscale t w)))
  = dot x (lincomb cs u) - t * dot x (lincomb cs w).
Proof. rewrite !dot_lincomb, dot_vsub_l, dot_vscale_l; ring. Qed.

(** The residual [b - lincomb cs (ls_coeffs cs b)] is orthogonal to every
    vector of [cs]. *)
Lemma ls_coeffs_orth (cs : list vec) :
  forall b c, In c cs -> dot c (vsub b (lincomb cs (ls_coeffs cs b))) = 0.
Proof.
  induction cs as [|c0 cs IH]; intros b x Hx; [destruct Hx|].
  cbn [ls_coeffs].
  set (w := ls_coeffs cs c0); set (c' := vsub c0 (lincomb cs w)).
  set (u := ls_coeffs cs b); set (r := vsub b (lincomb cs u)).
  assert (Hc' : forall y, In y cs -> dot y c' = 0)
    by (intros; apply IH; trivial).
  assert (Hr : forall y, In y cs -> dot y r = 0)
    by (intros; apply IH; trivial).
  assert (Hrw : dot r (lincomb cs w) = 0)
    by (apply dot_lincomb_orth; intros; rewrite dot_comm; auto).
  assert (Hcw : dot c' (lincomb cs w) = 0)
    by (apply dot_lincomb_orth; intros; rewrite dot_comm; auto).
  assert (H0r : dot c0 r = dot c' r).
  { transitivity (dot c0 r - dot (lincomb cs w) r);
      [rewrite (dot_comm (lincomb cs w) r), Hrw; ring
      | symmetry; apply dot_vsub_l]. }
  assert (H0c : dot c0 c' = dot c' c').
  { transitivity (dot c0 c' - dot (lincomb cs w) c');
      [rewrite (dot_comm (lincomb cs w) c'), Hcw; ring
      | symmetry; apply dot_vsub_l]. }
  assert (Er : dot x r = dot x b - dot x (lincomb cs u))
    by apply dot_vsub_r.
  assert (Ec : dot x c' = dot x c0 - dot x (lincomb cs w))
    by apply dot_vsub_r.
  destruct (Req_EM_T (dot c' c') 0) as [Hz|Hnz]; cbn [lincomb];
    rewrite dot_vsub_r, dot_vadd_r, dot_vscale_r.
  - assert (H : dot x r = 0).
    { destruct Hx as [<-|Hx]; [|auto].
      rewrite H0r; apply dot_self_zero_l; trivial. }
    rewrite Er in H; lra.
  - rewrite lincomb_vsub_dot.
    set (t := dot c' r / dot c' c').
    assert (H : dot x r - t * dot x c' = 0).
    { destruct Hx as [<-|Hx].
      - rewrite H0r, H0c; unfold t; field; trivial.
      - rewrite Hr, Hc' by trivial; ring. }
    rewrite Er, Ec in H; rewrite <- H; ring.
Qed.

Lemma dot_map_zero {X : Type} (u : vec) (l : list X) :
  dot u (map (fun _ => 0) l) = 0.
Proof.
  revert u; induction l as [|x l IH]; intros [|a u]; simpl; trivial.
  rewrite IH; ring.
Qed.

(** Reading the entries [0 .. n-1] of a row pads or cuts it to [n]
    entries, which an inner product with at most [n] coefficients does not
    see. *)
Lemma dot_tabulate (n : nat) :
  forall (r u : vec), (length u <= n)%nat ->
    dot u (map (fun j => nth j r 0) (seq 0 n)) = dot u r.
Proof.
  induction n as [|n IH]; intros r [|a u] Hu; simpl in Hu; trivial; try lia.
  cbn [seq map]; rewrite <- seq_shift, map_map.
  destruct r as [|h r]; cbn [dot nth].
  - rewrite dot_map_zero; ring.
  - rewrite IH by lia; reflexivity.
Qed.

(** [(A^T x) . u = x . (A u)] *)
Lemma col_matvec (n : nat) (A : matrix) :
  forall (x u : vec), (length u <= n)%nat ->
    dot u (map (dot x) (columns n A)) = dot x (matvec A u).
Proof.
  unfold columns; induction A as [|r A IH]; intros x u Hu; rewrite map_map.
  - rewrite (map_ext _ (fun _ => 0)) by (intros; apply dot_nil_r).
    rewrite dot_map_zero; symmetry; apply dot_nil_r.
  - destruct x as [|x0 x]; [apply dot_map_zero|].
    rewrite (map_ext _ (fun j => x0 * nth j r 0 + dot x (col j A)))
      by reflexivity.
    rewrite <- vadd_map, dot_vadd_r.
    rewrite <- (map_map (fun j => nth j r 0) (Rmult x0)).
    fold (vscale x0 (map (fun j => nth j r 0) (seq 0 n))).
    rewrite dot_vscale_r, dot_tabulate by trivial.
    rewrite <- (map_map (fun j => col j A) (dot x)), IH by trivial.
    cbn [matvec map dot]; rewrite (dot_comm r u); reflexivity.
Qed.

(** [v . (A^T y) = y . (A v)] *)
Lemma row_matvec (A : matrix) (v y : vec) :
  dot v (lincomb A y) = dot y (matvec A v).
Proof.
  rewrite dot_lincomb; unfold matvec; f_equal.
  apply map_ext; intros; apply dot_comm.
Qed.

Lemma matvec_vsub (A : matrix) (v u : vec) :
  matvec A (vsub v u) = vsub (matvec A v) (matvec A u).
Proof.
  unfold matvec; rewrite vsub_map; apply map_ext; intros r.
  rewrite dot_vsub_r; ring.
Qed.

End Projection.

(** ** The solver meets the contract of [linalg.lstsq] *)
Section LeastSquares.

Variables (n : nat) (A : matrix) (b : vec).

Lemma length_lincomb_le (cs : list vec) :
  Forall (fun r => length r <= n)%nat cs ->
  forall u, (length (lincomb cs u) <= n)%nat.
Proof.
  induction 1 as [|c cs Hc _ IH]; intros [|a u]; cbn [lincomb length];
    try lia.
  rewrite length_vadd, length_vscale; specialize (IH u); lia.
Qed.

Lemma lstsq_length : has_shape n A -> length (lstsq n A b) = n.
Proof.
  intros HA; unfold lstsq; rewrite length_vadd, length_np_zeros.
  apply Nat.max_l, length_lincomb_le.
  eapply Forall_impl; [|exact HA]; simpl; intros; lia.
Qed.

(** The projection on the rows does not change [A u]. *)
Lemma matvec_lstsq :
  matvec A (lstsq n A b) = matvec A (ls_coeffs (columns n A) b).
Proof.
  unfold lstsq; set (u0 := ls_coeffs (columns n A) b).
  apply map_ext_in; intros r Hr.
  pose proof (ls_coeffs_orth A u0 r Hr) as H.
  rewrite dot_vsub_r in H.
  rewrite dot_vadd_r, (dot_comm r (np_zeros n)), dot_zeros_l; lra.
Qed.

Lemma lstsq_normal : normal_equations n A b (lstsq n A b).
Proof.
  intros c Hc; unfold residual; rewrite matvec_lstsq.
  set (u0 := ls_coeffs (columns n A) b).
  pose proof (ls_coeffs_orth (columns n A) b c Hc) as H; fold u0 in H.
  rewrite dot_vsub_r, dot_lincomb in H.
  rewrite col_matvec in H.
  - rewrite dot_vsub_r; lra.
  - unfold u0, columns; rewrite ls_coeffs_length, length_map, length_seq; lia.
Qed.

(** Under the normal equations the residual is orthogonal to the range of
    [A]. *)
Lemma normal_range (u w : vec) :
  normal_equations n A b u -> (length w <= n)%nat ->
  dot (matvec A w) (residual A b u) = 0.
Proof.
  intros Hu Hw; rewrite dot_comm, <- (col_matvec n) by trivial.
  rewrite (map_ext_in _ (fun _ => 0)); [apply dot_map_zero|].
  intros c Hc; rewrite dot_comm; auto.
Qed.

(** Pythagoras: [|A v - b|^2 = |A u - b|^2 + |A (v - u)|^2]. *)
Lemma ssr_split (u v : vec) :
  normal_equations n A b u -> (length u <= n)%nat -> (length v <= n)%nat ->
  ssr A b v
  = ssr A b u + dot (matvec A (vsub v u)) (matvec A (vsub v u)).
Proof.
  intros Hu Lu Lv.
  pose proof (normal_range u u Hu Lu) as Nu.
  pose proof (normal_range u v Hu Lv) as Nv.
  unfold ssr, residual in *; rewrite matvec_vsub.
  rewrite dot_vsub_r in Nu, Nv.
  rewrite !dot_vsub_l, !dot_vsub_r.
  rewrite (dot_comm b (matvec A v)), (dot_comm b (matvec A u)),
    (dot_comm (matvec A u) (matvec A v)).
  lra.
Qed.

Lemma normal_least_squares (u : vec) :
  normal_equations n A b u -> length u = n -> least_squares n A b u.
Proof.
  intros Hu Lu; split; trivial; intros v Lv.
  rewrite (ssr_split u v) by (trivial; lia).
  pose proof (dot_self_nonneg (matvec A (vsub v u))); lra.
Qed.

(** Two least-squares solutions have the same image under [A]. *)
Lemma least_squares_same_image (u v : vec) :
  normal_equations n A b u -> length u = n -> least_squares n A b v ->
  matvec A (vsub v u) = np_zeros (length A).
Proof.
  intros Hu Lu [Lv Hv].
  assert (H : ssr A b v = ssr A b u
              + dot (matvec A (vsub v u)) (matvec A (vsub v u)))
    by (apply ssr_split; trivial; lia).
  specialize (Hv u Lu).
  pose proof (dot_self_nonneg (matvec A (vsub v u))) as Hp.
  assert (Hz : dot (matvec A (vsub v u)) (matvec A (vsub v u)) = 0) by lra.
  apply dot_self_zero in Hz; rewrite Hz; f_equal; apply length_map.
Qed.

(** The solution is orthogonal to the null space of [A]. *)
Lemma lstsq_orth_null (z : vec) :
  matvec A z = np_zeros (length A) -> dot (lstsq n A b) z = 0.
Proof.
  intros Hz; unfold lstsq.
  rewrite dot_vadd_l, dot_zeros_l, dot_comm, row_matvec, Hz.
  rewrite dot_comm, dot_zeros_l; ring.
Qed.

Lemma lstsq_least_squares :
  has_shape n A -> least_squares n A b (lstsq n A b).
Proof.
  intros HA; apply normal_least_squares;
    [apply lstsq_normal | apply lstsq_length, HA].
Qed.

(** A least-squares solution orthogonal to the null space of [A] is the
    solver's. *)
Lemma lstsq_characterised (u : vec) :
  has_shape n A -> least_squares n A b u ->
  (forall z, length z = n -> matvec A z = np_zeros (length A) -> dot u z = 0) ->
  u = lstsq n A b.
Proof.
  intros HA Hu Hz.
  pose proof (lstsq_length HA) as Ls.
  pose proof (least_squares_same_image _ u lstsq_normal Ls Hu) as Him.
  assert (Lz : length (vsub u (lstsq n A b)) = n)
    by (rewrite length_vsub, Ls, (proj1 Hu); lia).
  apply vsub_norm_zero; [rewrite Ls; apply Hu|].
  rewrite dot_vsub_l, (Hz _ Lz Him), (lstsq_orth_null _ Him); ring.
Qed.

(** The solver returns a minimiser of least norm. *)
Theorem lstsq_meets_contract :
  has_shape n A -> lstsq_contract n A b (lstsq n A b).
Proof.
  intros HA; split; [apply lstsq_least_squares, HA|]; intros v Hv.
  pose proof (lstsq_length HA) as Ls.
  pose proof (least_squares_same_image _ v lstsq_normal Ls Hv) as Him.
  pose proof (lstsq_orth_null _ Him) as Ho.
  pose proof (dot_self_nonneg (vsub v (lstsq n A b))) as Hp.
  rewrite dot_vsub_r in Ho.
  rewrite dot_vsub_l, !dot_vsub_r, (dot_comm v (lstsq n A b)) in Hp; lra.
Qed.

(** The contract leaves no choice: whatever meets it is the solver's
    result. *)
Theorem lstsq_contract_unique (u : vec) :
  has_shape n A -> lstsq_contract n A b u -> u = lstsq n A b.
Proof.
  intros HA [Hu Hmin].
  pose proof (lstsq_length HA) as Ls.
  pose proof (least_squares_same_image _ u lstsq_normal Ls Hu) as Him.
  pose proof (lstsq_orth_null _ Him) as Ho.
  specialize (Hmin _ (lstsq_least_squares HA)).
  apply vsub_norm_zero; [rewrite Ls; apply Hu|].
  pose proof (dot_self_nonneg (vsub u (lstsq n A b))) as Hp.
  rewrite dot_vsub_r in Ho.
  rewrite dot_vsub_l, !dot_vsub_r, (dot_comm u (lstsq n A b)) in *; lra.
Qed.

(** With full column rank there is one least-squares solution. *)
Lemma full_rank_unique (v : vec) :
  has_shape n A -> full_column_rank n A -> least_squares n A b v ->
  v = lstsq n A b.
Proof.
  intros HA Hrk Hv.
  pose proof (lstsq_length HA) as Ls.
  pose proof (least_squares_same_image _ v lstsq_normal Ls Hv) as Him.
  assert (Lz : length (vsub v (lstsq n A b)) = n)
    by (rewrite length_vsub, Ls, (proj1 Hv); lia).
  apply vsub_norm_zero; [rewrite Ls; apply Hv|].
  rewrite (Hrk _ Lz Him); apply dot_zeros_l.
Qed.

Lemma rank_deficient_not_full :
  rank_deficient n A -> ~ full_column_rank n A.
Proof. intros (z & Lz & Hz & Hnull) H; apply Hz, H; trivial. Qed.

Lemma matvec_zero_rows (M : matrix) (z : vec) :
  matvec M z = np_zeros (length M) -> forall r, In r M -> dot r z = 0.
Proof.
  unfold matvec, np_zeros; induction M as [|r0 M IH]; intros H r Hr;
    [destruct Hr|].
  cbn [map length repeat] in H; injection H as H0 H.
  destruct Hr as [<-|Hr]; auto.
Qed.

(** Adding a null vector to a least-squares solution gives another one. *)
Lemma least_squares_add_null (u z : vec) :
  least_squares n A b u -> length z = n ->
  matvec A z = np_zeros (length A) ->
  least_squares n A b (vadd u z).
Proof.
  intros [Lu Hu] Lz Hz.
  assert (E : residual A b (vadd u z) = residual A b u).
  { unfold residual, matvec; f_equal; apply map_ext_in; intros r Hr.
    rewrite dot_vadd_r, (matvec_zero_rows A z Hz r Hr); ring. }
  split; [rewrite length_vadd; lia|].
  intros v Lv; unfold ssr at 1; rewrite E; apply Hu, Lv.
Qed.

Lemma dot_self_pos (z : vec) : z <> np_zeros (length z) -> 0 < dot z z.
Proof.
  intros Hz; destruct (Rle_lt_or_eq_dec _ _ (dot_self_nonneg z)) as [|E];
    trivial.
  exfalso; apply Hz, dot_self_zero; auto.
Qed.

(** With a rank-deficient matrix the least-squares solution is not unique. *)
Lemma rank_deficient_not_unique :
  has_shape n A -> rank_deficient n A ->
  exists v, least_squares n A b v /\ v <> lstsq n A b
            /\ dot (lstsq n A b) (lstsq n A b) < dot v v.
Proof.
  intros HA (z & Lz & Hz & Hnull).
  pose proof (lstsq_orth_null z Hnull) as Ho.
  assert (Hp : 0 < dot z z) by (apply dot_self_pos; rewrite Lz; trivial).
  assert (Hn : dot (lstsq n A b) (lstsq n A b)
               < dot (vadd (lstsq n A b) z) (vadd (lstsq n A b) z)).
  { rewrite dot_vadd_l, !dot_vadd_r, (dot_comm z (lstsq n A b)); lra. }
  exists (vadd (lstsq n A b) z); repeat split; trivial.
  - rewrite length_vadd, lstsq_length, Lz by trivial; lia.
  - intros v Lv; apply least_squares_add_null; trivial.
    apply lstsq_least_squares, HA.
  - intros E; rewrite E in Hn; lra.
Qed.

End LeastSquares.

(** ** The sphere system *)

Lemma vec4_inv (v : vec) :
  length v = 4%nat -> exists a b c d, v = [a; b; c; d].
Proof.
  destruct v as [|a [|b [|c [|d [|e v]]]]]; try discriminate.
  intros _; exists a, b, c, d; reflexivity.
Qed.

(** Equality of two explicit vectors, entry by entry. *)
Ltac vec_eq :=
  repeat (apply (f_equal2 (@cons R));
          [try reflexivity; try lra; try (field; lra)|]);
  try reflexivity.

Section Sphere.

Lemma solve_length (pts : list Point3D) : length (solve pts) = 4%nat.
Proof. apply lstsq_length, system_shape. Qed.

Lemma solve_least_squares (pts : list Point3D) :
  least_squares 4 (system_A pts) (system_b pts) (solve pts).
Proof. apply lstsq_least_squares, system_shape. Qed.

Lemma np_sqrt_nonneg (x : R) : 0 <= x -> np_sqrt x = Num (sqrt x).
Proof. intros H; unfold np_sqrt; destruct (Rlt_dec x 0); [lra | reflexivity]. Qed.

Lemma np_sqrt_square (x y : R) : 0 <= y -> x = y * y -> np_sqrt x = Num y.
Proof.
  intros Hy ->; rewrite np_sqrt_nonneg by nra.
  f_equal; apply sqrt_square, Hy.
Qed.

Lemma radicand_eq (cx cy cz k : R) :
  radicand [cx; cy; cz; k] = cx * cx + cy * cy + cz * cz - k.
Proof. unfold radicand; rewrite norm_sq; simpl; ring. Qed.

(** The residual of a point is its squared distance to the centre minus the
    squared radius term. *)
Lemma point_residual (p : Point3D) (cx cy cz k : R) :
  dot (spec_row p) [cx; cy; cz; k] + -1 * spec_rhs p
  = (px p - cx) * (px p - cx) + (py p - cy) * (py p - cy)
    + (pz p - cz) * (pz p - cz) - radicand [cx; cy; cz; k].
Proof. rewrite radicand_eq; unfold spec_row, spec_rhs; simpl; ring. Qed.

Lemma sqdist_nonneg (p : Point3D) (cx cy cz : R) :
  0 <= (px p - cx) * (px p - cx) + (py p - cy) * (py p - cy)
       + (pz p - cz) * (pz p - cz).
Proof.
  pose proof (Rle_0_sqr (px p - cx)); pose proof (Rle_0_sqr (py p - cy));
    pose proof (Rle_0_sqr (pz p - cz)); unfold Rsqr in *; lra.
Qed.

Lemma dot_ones_nonneg {X : Type} (g : X -> R) (l : list X) :
  (forall x, 0 <= g x) -> 0 <= dot (map (fun _ => 1) l) (map g l).
Proof.
  intros Hg; induction l as [|x l IH]; simpl; [lra|].
  specialize (Hg x); lra.
Qed.

(** The column of ones in the normal equations: the squared radius term is
    the mean squared distance of the points to the centre. *)
Lemma solve_radicand_nonneg (pts : list Point3D) : 0 <= radicand (solve pts).
Proof.
  destruct pts as [|p pts].
  - replace (solve []) with [0; 0; 0; 0]
      by (unfold solve; rewrite system_A_eq; reflexivity).
    rewrite radicand_eq; lra.
  - pose proof (lstsq_normal 4 (system_A (p :: pts)) (system_b (p :: pts))) as H.
    fold (solve (p :: pts)) in H.
    destruct (vec4_inv _ (solve_length (p :: pts))) as (a & b & c & d & E).
    rewrite E in *; clear E.
    specialize (H (col 3 (system_A (p :: pts)))).
    unfold residual, matvec, col in H.
    rewrite system_A_eq, system_b_eq, !map_map, vsub_map in H.
    rewrite (map_ext (fun q => dot (spec_row q) [a; b; c; d] + -1 * spec_rhs q)
               _ (fun q => point_residual q a b c d)) in H.
    assert (Hin : In (map (fun q : Point3D => nth 3 (spec_row q) 0) (p :: pts))
                     (columns 4 (map spec_row (p :: pts)))).
    { unfold columns, col; cbn [seq map]; rewrite !map_map; simpl; auto. }
    specialize (H Hin); cbn [map dot nth spec_row] in H.
    set (g := fun q : Point3D =>
                (px q - a) * (px q - a) + (py q - b) * (py q - b)
                + (pz q - c) * (pz q - c) - radicand [a; b; c; d]) in H.
    apply Rnot_lt_le; intros Hneg.
    assert (Hs : 0 <= dot (map (fun _ : Point3D => 1) pts) (map g pts))
      by (apply dot_ones_nonneg; intros q; unfold g;
          pose proof (sqdist_nonneg q a b c); lra).
    assert (Hp : 0 < g p)
      by (unfold g; pose proof (sqdist_nonneg p a b c); lra).
    fold (g p) in H; lra.
Qed.

End Sphere.

(** ** The example clouds *)
Section Examples.

(** A vector that solves [A u = b] exactly is a least-squares solution. *)
Lemma exact_solution_least_squares (n : nat) (A : matrix) (b u : vec) :
  length u = n -> matvec A u = b -> least_squares n A b u.
Proof.
  intros Lu Hu; split; trivial; intros v _.
  unfold ssr at 1; unfold residual; rewrite Hu, dot_vsub_l.
  pose proof (dot_self_nonneg (residual A b v)); unfold ssr; lra.
Qed.

Lemma unit_full_rank : full_column_rank 4 (system_A unit_cloud).
Proof.
  rewrite system_A_eq; intros v Lv H.
  destruct (vec4_inv v Lv) as (a & b & c & d & ->).
  injection H as H1 H2 H3 H4; cbn [px py pz] in *.
  unfold np_zeros; cbn [repeat]; vec_eq.
Qed.

Lemma solve_unit : solve unit_cloud = [0; 0; 0; -1].
Proof.
  symmetry; apply full_rank_unique;
    [apply system_shape | apply unit_full_rank |].
  apply exact_solution_least_squares; [reflexivity|].
  rewrite system_A_eq, system_b_eq.
  unfold unit_cloud, matvec, spec_row, spec_rhs; cbn [map dot px py pz].
  vec_eq.
Qed.

Lemma solve_single : solve single_cloud = [2 / 5; 0; 0; -1 / 5].
Proof.
  symmetry; apply lstsq_characterised; [apply system_shape | |].
  - apply exact_solution_least_squares; [reflexivity|].
    rewrite system_A_eq, system_b_eq.
    unfold single_cloud, matvec, spec_row, spec_rhs; cbn [map dot px py pz].
    vec_eq.
  - rewrite system_A_eq; intros z Lz H.
    destruct (vec4_inv z Lz) as (a & b & c & d & ->).
    injection H as H1; cbn [px py pz] in *; cbn [dot]; lra.
Qed.

Lemma solve_planar : solve planar_cloud = [0; 0; 0; -1].
Proof.
  symmetry; apply lstsq_characterised; [apply system_shape | |].
  - apply exact_solution_least_squares; [reflexivity|].
    rewrite system_A_eq, system_b_eq.
    unfold planar_cloud, matvec, spec_row, spec_rhs; cbn [map dot px py pz].
    vec_eq.
  - rewrite system_A_eq; intros z Lz H.
    destruct (vec4_inv z Lz) as (a & b & c & d & ->).
    injection H as H1 H2 H3 H4; cbn [px py pz] in *; cbn [dot]; lra.
Qed.

(** The points of [planar_cloud] lie in the plane [z = 0]: the third
    column of the matrix is zero. *)
Lemma planar_rank_deficient : rank_deficient 4 (system_A planar_cloud).
Proof.
  exists [0; 0; 1; 0]; split; [reflexivity|]; split.
  - unfold np_zeros; cbn [repeat]; intros E; injection E as E; lra.
  - rewrite system_A_eq; unfold planar_cloud, matvec, spec_row;
      cbn [map dot px py pz length np_zeros repeat]; vec_eq.
Qed.

End Examples.

(** ** Translating the cloud *)
Section Translation.

Variable t : Point3D.

Lemma length_shift (s : Point3D) (u : vec) : length (shift s u) = length u.
Proof. destruct u as [|a [|b [|c [|d [|e u]]]]]; reflexivity. Qed.

Lemma shift_back (u : vec) : shift t (shift (opp_point t) u) = u.
Proof.
  destruct u as [|a [|b [|c [|d [|e u]]]]]; try reflexivity.
  unfold shift, opp_point; cbn [px py pz]; vec_eq; ring.
Qed.

(** The residual of the moved point at the moved sphere is the residual of
    the point at the sphere. *)
Lemma row_translate (p : Point3D) (u : vec) :
  length u = 4%nat ->
  dot (spec_row (translate t p)) (shift t u) + -1 * spec_rhs (translate t p)
  = dot (spec_row p) u + -1 * spec_rhs p.
Proof.
  intros Lu; destruct (vec4_inv u Lu) as (a & b & c & d & ->).
  unfold spec_row, spec_rhs, translate, shift; cbn [px py pz dot]; ring.
Qed.

Lemma residual_translate (pts : list Point3D) (u : vec) :
  length u = 4%nat ->
  residual (system_A (map (translate t) pts)) (system_b (map (translate t) pts))
    (shift t u)
  = residual (system_A pts) (system_b pts) u.
Proof.
  intros Lu; unfold residual, matvec.
  rewrite !system_A_eq, !system_b_eq, !map_map, !vsub_map.
  apply map_ext; intros p; apply row_translate, Lu.
Qed.

Lemma ssr_translate (pts : list Point3D) (u : vec) :
  length u = 4%nat ->
  ssr (system_A (map (translate t) pts)) (system_b (map (translate t) pts))
    (shift t u)
  = ssr (system_A pts) (system_b pts) u.
Proof. intros Lu; unfold ssr; rewrite residual_translate; trivial. Qed.

Lemma least_squares_translate (pts : list Point3D) (u : vec) :
  least_squares 4 (system_A pts) (system_b pts) u ->
  least_squares 4 (system_A (map (translate t) pts))
    (system_b (map (translate t) pts)) (shift t u).
Proof.
  intros [Lu Hu]; split; [rewrite length_shift; trivial|]; intros v Lv.
  rewrite <- (shift_back v), !ssr_translate
    by (rewrite ?length_shift; trivial).
  apply Hu; rewrite length_shift; trivial.
Qed.

Lemma matvec_translate (pts : list Point3D) (w : vec) :
  length w = 4%nat ->
  matvec (system_A (map (translate t) pts)) w
  = matvec (system_A pts) (unshift_lin t w).
Proof.
  intros Lw; destruct (vec4_inv w Lw) as (a & b & c & d & ->).
  unfold matvec; rewrite !system_A_eq, !map_map; apply map_ext; intros p.
  unfold spec_row, translate, unshift_lin; cbn [px py pz dot]; ring.
Qed.

Lemma full_rank_translate (pts : list Point3D) :
  full_column_rank 4 (system_A pts) ->
  full_column_rank 4 (system_A (map (translate t) pts)).
Proof.
  intros Hrk w Lw Hw.
  rewrite matvec_translate in Hw by trivial.
  assert (E : length (system_A (map (translate t) pts))
              = length (system_A pts))
    by (rewrite !system_A_eq, !length_map; reflexivity).
  rewrite E in Hw; clear E.
  destruct (vec4_inv w Lw) as (a & b & c & d & ->).
  apply Hrk in Hw; [|reflexivity].
  unfold np_zeros in *; cbn [repeat unshift_lin] in *.
  injection Hw as -> -> -> Hd; vec_eq.
Qed.

Lemma solve_translate (pts : list Point3D) :
  full_column_rank 4 (system_A pts) ->
  solve (map (translate t) pts) = shift t (solve pts).
Proof.
  intros Hrk; symmetry; apply full_rank_unique.
  - apply system_shape.
  - apply full_rank_translate, Hrk.
  - apply least_squares_translate, solve_least_squares.
Qed.

Lemma radicand_shift (u : vec) :
  length u = 4%nat -> radicand (shift t u) = radicand u.
Proof.
  intros Lu; destruct (vec4_inv u Lu) as (a & b & c & d & ->).
  unfold shift; rewrite !radicand_eq; ring.
Qed.

Lemma center_shift (u : vec) :
  length u = 4%nat -> firstn 3 (shift t u) = vadd (firstn 3 u) (np_array t).
Proof.
  intros Lu; destruct (vec4_inv u Lu) as (a & b & c & d & ->); reflexivity.
Qed.

End Translation.

(** ** The fit *)

(** The cell always ends with a centre and a real, non-negative radius. *)
Lemma fit_returns (pts : list Point3D) :
  exists r, fit pts = Returned (mkFit (firstn 3 (solve pts)) (Num r))
            /\ 0 <= r /\ r * r = radicand (solve pts).
Proof.
  pose proof (solve_radicand_nonneg pts) as H.
  exists (sqrt (radicand (solve pts))); repeat split.
  - unfold fit, report; rewrite np_sqrt_nonneg by trivial; reflexivity.
  - apply sqrt_pos.
  - apply sqrt_sqrt, H.
Qed.

(** C1.  For every point cloud the loop leaves in [A] one row
    [(-2 x, -2 y, -2 z, 1)] per point, in the order of the points, and in [b]
    the entry [-(x^2 + y^2 + z^2)] of the same point; there are as many rows
    and entries as points and no others. *)
Theorem system_rows_as_specified (pts : list Point3D) :
  build_system pts = (map spec_row pts, map spec_rhs pts)
  /\ length (system_A pts) = length pts
  /\ length (system_b pts) = length pts.
Proof.
  rewrite system_A_eq, system_b_eq, !length_map.
  repeat split; apply build_system_eq.
Qed.

(** C2.  For a cloud of at least 4 points whose matrix has full column rank,
    the vector the solver returns minimises [|A u - b|^2] over all [u], and
    it is the only vector that does. *)
Theorem fit_unique_minimiser (pts : list Point3D) :
  (4 <= length pts)%nat ->
  full_column_rank 4 (system_A pts) ->
  least_squares 4 (system_A pts) (system_b pts) (solve pts)
  /\ forall v, least_squares 4 (system_A pts) (system_b pts) v -> v = solve pts.
Proof.
  intros _ Hrk; split; [apply solve_least_squares|].
  intros v Hv; apply full_rank_unique; trivial; apply system_shape.
Qed.

Lemma fit_unique_minimiser_witness :
  (4 <= length unit_cloud)%nat
  /\ full_column_rank 4 (system_A unit_cloud)
  /\ least_squares 4 (system_A unit_cloud) (system_b unit_cloud)
       (solve unit_cloud)
  /\ forall v, least_squares 4 (system_A unit_cloud) (system_b unit_cloud) v ->
               v = solve unit_cloud.
Proof.
  split; [simpl; lia|]; split; [apply unit_full_rank|].
  apply (fit_unique_minimiser unit_cloud); [simpl; lia | apply unit_full_rank].
Defined.

(** C3.  When the solver returns [(cx, cy, cz, k)], the fit has centre
    [(cx, cy, cz)] and radius [sqrt(cx^2 + cy^2 + cz^2 - k)], a real square
    root since that term is never negative for a solver result. *)
Theorem fit_center_radius (pts : list Point3D) (cx cy cz k : R) :
  solve pts = [cx; cy; cz; k] ->
  fit pts = Returned (mkFit [cx; cy; cz]
                        (np_sqrt (cx * cx + cy * cy + cz * cz - k)))
  /\ np_sqrt (cx * cx + cy * cy + cz * cz - k)
     = Num (sqrt (cx * cx + cy * cy + cz * cz - k)).
Proof.
  intros E; pose proof (solve_radicand_nonneg pts) as H.
  rewrite E, radicand_eq in H; split; [|apply np_sqrt_nonneg, H].
  unfold fit, report; rewrite E, radicand_eq; reflexivity.
Qed.

Lemma fit_center_radius_witness :
  solve unit_cloud = [0; 0; 0; -1]
  /\ fit unit_cloud
     = Returned (mkFit [0; 0; 0] (np_sqrt (0 * 0 + 0 * 0 + 0 * 0 - -1)))
  /\ np_sqrt (0 * 0 + 0 * 0 + 0 * 0 - -1)
     = Num (sqrt (0 * 0 + 0 * 0 + 0 * 0 - -1)).
Proof.
  split; [apply solve_unit|].
  apply (fit_center_radius unit_cloud 0 0 0 (-1)), solve_unit.
Defined.

(** C4.  For the four points (1,0,0), (-1,0,0), (0,1,0), (0,0,1) the fit is
    the centre (0,0,0) and the radius 1, exactly. *)
Theorem fit_unit_cloud :
  fit unit_cloud = Returned (mkFit [0; 0; 0] (Num 1)).
Proof.
  unfold fit, report; rewrite solve_unit, radicand_eq.
  cbn [firstn]; do 2 f_equal; apply np_sqrt_square; lra.
Qed.

(** C5, as stated, fails: on the single point (1,0,0) the cell raises
    nothing and returns the centre (2/5, 0, 0) and the radius 3/5, read off
    the least-norm solution of the one equation. *)
Lemma single_point_returns :
  (length single_cloud < 4)%nat
  /\ fit single_cloud = Returned (mkFit [2 / 5; 0; 0] (Num (3 / 5)))
  /\ fit single_cloud <> Raised InsufficientDataError.
Proof.
  split; [simpl; lia|]; split; [|discriminate].
  unfold fit, report; rewrite solve_single, radicand_eq.
  cbn [firstn]; do 2 f_equal; apply np_sqrt_square; lra.
Qed.

(** C5, amended.  For a cloud of one to three points the fit does not fail:
    the solver returns the least-norm minimiser of the underdetermined
    system, and the fit is the centre and the real, non-negative radius read
    off it. *)
Theorem few_points_returns (pts : list Point3D) :
  pts <> [] -> (length pts < 4)%nat ->
  lstsq_contract 4 (system_A pts) (system_b pts) (solve pts)
  /\ exists r, fit pts = Returned (mkFit (firstn 3 (solve pts)) (Num r))
               /\ 0 <= r /\ r * r = radicand (solve pts).
Proof.
  intros _ _; split; [|apply fit_returns].
  apply lstsq_meets_contract, system_shape.
Qed.

Lemma few_points_returns_witness :
  single_cloud <> [] /\ (length single_cloud < 4)%nat
  /\ lstsq_contract 4 (system_A single_cloud) (system_b single_cloud)
       (solve single_cloud)
  /\ exists r, fit single_cloud
               = Returned (mkFit (firstn 3 (solve single_cloud)) (Num r))
               /\ 0 <= r /\ r * r = radicand (solve single_cloud).
Proof.
  split; [discriminate|]; split; [simpl; lia|].
  apply (few_points_returns single_cloud); [discriminate | simpl; lia].
Defined.

(** C6, as stated, fails: the four points of [planar_cloud] lie in the
    plane [z = 0], the matrix is rank-deficient, and the cell raises nothing
    and returns the centre (0,0,0) and the radius 1. *)
Lemma planar_cloud_returns :
  rank_deficient 4 (system_A planar_cloud)
  /\ ~ full_column_rank 4 (system_A planar_cloud)
  /\ fit planar_cloud = Returned (mkFit [0; 0; 0] (Num 1))
  /\ fit planar_cloud <> Raised SingularSystemError.
Proof.
  split; [apply planar_rank_deficient|].
  split; [apply rank_deficient_not_full, planar_rank_deficient|].
  split; [|discriminate].
  unfold fit, report; rewrite solve_planar, radicand_eq.
  cbn [firstn]; do 2 f_equal; apply np_sqrt_square; lra.
Qed.

(** C6, amended.  For a non-empty cloud whose matrix is rank-deficient the
    fit does not fail and no rank check is made: the minimisers of
    [|A u - b|^2] are not unique, the solver returns the one of least norm
    among them, and the fit is the centre and the real, non-negative radius
    read off it. *)
Theorem rank_deficient_returns (pts : list Point3D) :
  pts <> [] -> rank_deficient 4 (system_A pts) ->
  lstsq_contract 4 (system_A pts) (system_b pts) (solve pts)
  /\ (exists v, least_squares 4 (system_A pts) (system_b pts) v
                /\ v <> solve pts /\ dot (solve pts) (solve pts) < dot v v)
  /\ exists r, fit pts = Returned (mkFit (firstn 3 (solve pts)) (Num r))
               /\ 0 <= r /\ r * r = radicand (solve pts).
Proof.
  intros _ Hrk; split; [apply lstsq_meets_contract, system_shape|].
  split; [|apply fit_returns].
  apply rank_deficient_not_unique; [apply system_shape | exact Hrk].
Qed.

Lemma rank_deficient_returns_witness :
  planar_cloud <> [] /\ rank_deficient 4 (system_A planar_cloud)
  /\ lstsq_contract 4 (system_A planar_cloud) (system_b planar_cloud)
       (solve planar_cloud)
  /\ (exists v, least_squares 4 (system_A planar_cloud)
                  (system_b planar_cloud) v
                /\ v <> solve planar_cloud
                /\ dot (solve planar_cloud) (solve planar_cloud) < dot v v)
  /\ exists r, fit planar_cloud
               = Returned (mkFit (firstn 3 (solve planar_cloud)) (Num r))
               /\ 0 <= r /\ r * r = radicand (solve planar_cloud).
Proof.
  split; [discriminate|]; split; [apply planar_rank_deficient|].
  apply (rank_deficient_returns planar_cloud);
    [discriminate | apply planar_rank_deficient].
Defined.



(** C10.  For a cloud whose matrix has full column rank, moving every point
    by [t] moves the fitted centre by [t] and leaves the radius as it is. *)
Theorem fit_translation_equivariant (pts : list Point3D) (t : Point3D) :
  full_column_rank 4 (system_A pts) ->
  exists c r,
    fit pts = Returned (mkFit c r)
    /\ fit (map (translate t) pts) = Returned (mkFit (vadd c (np_array t)) r).
Proof.
  intros Hrk; exists (firstn 3 (solve pts)), (np_sqrt (radicand (solve pts))).
  split; [reflexivity|].
  unfold fit, report; rewrite solve_translate by trivial.
  rewrite radicand_shift, center_shift by apply solve_length; reflexivity.
Qed.

Lemma fit_translation_equivariant_witness :
  full_column_rank 4 (system_A unit_cloud)
  /\ exists c r,
       fit unit_cloud = Returned (mkFit c r)
       /\ fit (map (translate (mkPoint 1 2 3)) unit_cloud)
          = Returned (mkFit (vadd c (np_array (mkPoint 1 2 3))) r).
Proof.
  split; [apply unit_full_rank|].
  apply (fit_translation_equivariant unit_cloud (mkPoint 1 2 3)), unit_full_rank.
Defined.

(** ** Geometry of the fitted sphere *)
Section Geometry.

Lemma Rsum_map_nonneg {X : Type} (g : X -> R) (l : list X) :
  (forall x, 0 <= g x) -> 0 <= Rsum (map g l).
Proof.
  intros Hg; induction l as [|x l IH]; simpl; [lra|].
  specialize (Hg x); lra.
Qed.

Lemma dot_ones_map {X : Type} (g : X -> R) (l : list X) :
  dot (map (fun _ => 1) l) (map g l) = Rsum (map g l).
Proof. induction l as [|x l IH]; simpl; [|rewrite IH]; ring. Qed.

Lemma dot_map_self {X : Type} (g : X -> R) (l : list X) :
  dot (map g l) (map g l) = Rsum (map (fun x => g x * g x) l).
Proof. induction l as [|x l IH]; simpl; [|rewrite IH]; ring. Qed.

Lemma Rsum_map_minus_const {X : Type} (g : X -> R) (k : R) (l : list X) :
  Rsum (map (fun x => g x - k) l) = Rsum (map g l) - INR (length l) * k.
Proof.
  induction l as [|x l IH]; [simpl; ring|].
  cbn [map Rsum fold_right length]; fold (Rsum (map (fun x => g x - k) l)).
  fold (Rsum (map g l)); rewrite IH, S_INR; ring.
Qed.

(** The residual of the system at [(a, b, c, d)]: for each point its squared
    distance to [(a, b, c)] minus the squared radius term. *)
Lemma residual_system (pts : list Point3D) (a b c d : R) :
  residual (system_A pts) (system_b pts) [a; b; c; d]
  = map (fun p => sqdist [a; b; c] p - radicand [a; b; c; d]) pts.
Proof.
  unfold residual, matvec.
  rewrite system_A_eq, system_b_eq, map_map, vsub_map.
  apply map_ext; intros p; apply point_residual.
Qed.

(** The least-squares objective is the algebraic error of the sphere. *)
Lemma ssr_system (pts : list Point3D) (a b c d : R) :
  ssr (system_A pts) (system_b pts) [a; b; c; d]
  = algebraic_error pts [a; b; c] (radicand [a; b; c; d]).
Proof. unfold ssr; rewrite residual_system; apply dot_map_self. Qed.

(** What a returned fit says about the solver's result. *)
Lemma fit_inv (pts : list Point3D) (c : vec) (r : R) :
  fit pts = Returned (mkFit c (Num r)) ->
  exists k, solve pts = c ++ [k] /\ length c = 3%nat
            /\ 0 <= r /\ r * r = radicand (solve pts).
Proof.
  intros H; destruct (fit_returns pts) as (r0 & E & Hr & Hsq).
  rewrite E in H; injection H as <- <-.
  destruct (vec4_inv _ (solve_length pts)) as (x & y & z & k & Es).
  exists k; rewrite Es in *; repeat split; trivial.
Qed.

(** The unknowns of the sphere of centre [c] and radius [r] solve the
    system of a cloud that lies on it. *)
Lemma sphere_solves (pts : list Point3D) (c : Point3D) (r : R) :
  (forall p, In p pts -> on_sphere c r p) ->
  matvec (system_A pts)
    [px c; py c; pz c; px c * px c + py c * py c + pz c * pz c - r * r]
  = system_b pts.
Proof.
  intros H; unfold matvec; rewrite system_A_eq, system_b_eq, map_map.
  apply map_ext_in; intros p Hp; specialize (H p Hp).
  unfold on_sphere, sqdist, np_array in H; cbn [nth] in H.
  unfold spec_row, spec_rhs; cbn [dot]; lra.
Qed.

(** The normal equation of the column of ones. *)
Lemma residual_sums_to_zero (pts : list Point3D) :
  Rsum (residual (system_A pts) (system_b pts) (solve pts)) = 0.
Proof.
  pose proof (lstsq_normal 4 (system_A pts) (system_b pts)
                (col 3 (system_A pts))) as H.
  fold (solve pts) in H.
  destruct (vec4_inv _ (solve_length pts)) as (a & b & c & d & E).
  rewrite E in *; rewrite residual_system in *.
  unfold col in H; rewrite system_A_eq, map_map in H.
  cbn [nth spec_row] in H; rewrite dot_ones_map in H; apply H.
  unfold columns, col; cbn [seq map]; rewrite !map_map; simpl; auto.
Qed.

End Geometry.

(** X1.  Exact recovery: when the matrix has full column rank and every
    point lies on the sphere of centre [c] and radius [r >= 0], the fit is
    that centre and that radius. *)
Theorem fit_recovers_sphere (pts : list Point3D) (c : Point3D) (r : R) :
  0 <= r ->
  full_column_rank 4 (system_A pts) ->
  (forall p, In p pts -> on_sphere c r p) ->
  fit pts = Returned (mkFit (np_array c) (Num r)).
Proof.
  intros Hr Hrk Hon.
  assert (E : solve pts
              = [px c; py c; pz c;
                 px c * px c + py c * py c + pz c * pz c - r * r]).
  { symmetry; apply full_rank_unique; [apply system_shape | exact Hrk |].
    apply exact_solution_least_squares; [reflexivity|].
    apply sphere_solves, Hon. }
  unfold fit, report; rewrite E, radicand_eq; cbn [firstn].
  unfold np_array; do 2 f_equal; apply np_sqrt_square; [exact Hr | ring].
Qed.

Lemma fit_recovers_sphere_witness :
  fit unit_cloud = Returned (mkFit (np_array (mkPoint 0 0 0)) (Num 1)).
Proof.
  apply (fit_recovers_sphere unit_cloud (mkPoint 0 0 0) 1);
    [lra | apply unit_full_rank |].
  intros p [<-|[<-|[<-|[<-|[]]]]];
    unfold on_sphere, sqdist, np_array; cbn [nth px py pz]; ring.
Defined.

(** X2.  When the points lie on some sphere, every point lies exactly on the
    fitted sphere, also when the matrix is rank-deficient and the fitted
    sphere is another one. *)
Theorem cospherical_fit_interpolates (pts : list Point3D) (c0 : Point3D)
        (r0 : R) :
  (forall p, In p pts -> on_sphere c0 r0 p) ->
  exists c r,
    fit pts = Returned (mkFit c (Num r)) /\ 0 <= r
    /\ forall p, In p pts -> sqdist c p = r * r.
Proof.
  intros Hon; destruct (fit_returns pts) as (r & E & Hr & Hsq).
  exists (firstn 3 (solve pts)), r; repeat split; trivial.
  pose proof (sphere_solves pts c0 r0 Hon) as Hex.
  set (u0 := [px c0; py c0; pz c0; _]) in Hex.
  assert (Hu0 : ssr (system_A pts) (system_b pts) u0 = 0)
    by (unfold ssr, residual; rewrite Hex, dot_vsub_l; ring).
  pose proof (proj2 (solve_least_squares pts) u0 eq_refl) as Hle.
  assert (H0 : ssr (system_A pts) (system_b pts) (solve pts) = 0).
  { pose proof (dot_self_nonneg
                  (residual (system_A pts) (system_b pts) (solve pts))).
    unfold ssr in *; lra. }
  clear Hle Hu0 Hex; unfold ssr in H0.
  apply dot_self_zero in H0.
  destruct (vec4_inv _ (solve_length pts)) as (a & b & c & d & Es).
  rewrite Es in *; rewrite residual_system in H0; cbn [firstn].
  rewrite length_map in H0.
  intros p Hp; rewrite Hsq.
  assert (Hz : forall q, In q pts ->
            sqdist [a; b; c] q - radicand [a; b; c; d] = 0).
  { clear - H0; unfold np_zeros in H0.
    induction pts as [|q0 l IH]; intros q Hq; [destruct Hq|].
    cbn [map length repeat] in H0; injection H0 as H1 H2.
    destruct Hq as [<-|Hq]; auto. }
  specialize (Hz p Hp); lra.
Qed.

Lemma cospherical_fit_interpolates_witness :
  exists c r,
    fit planar_cloud = Returned (mkFit c (Num r)) /\ 0 <= r
    /\ forall p, In p planar_cloud -> sqdist c p = r * r.
Proof.
  apply (cospherical_fit_interpolates planar_cloud (mkPoint 0 0 0) 1).
  intros p [<-|[<-|[<-|[<-|[]]]]];
    unfold on_sphere, sqdist, np_array; cbn [nth px py pz]; ring.
Defined.

(** X3.  The fitted radius is the root-mean-square distance of the points to
    the fitted centre: the squared distances sum to [n r^2]. *)
Theorem radius_is_rms (pts : list Point3D) (c : vec) (r : R) :
  fit pts = Returned (mkFit c (Num r)) ->
  Rsum (map (sqdist c) pts) = INR (length pts) * (r * r).
Proof.
  intros H; destruct (fit_inv pts c r H) as (k & Es & Lc & Hr & Hsq).
  pose proof (residual_sums_to_zero pts) as H0.
  destruct c as [|x [|y [|z [|]]]]; try discriminate.
  rewrite Hsq; rewrite Es in *; cbn [app] in *.
  rewrite residual_system, Rsum_map_minus_const in H0; lra.
Qed.

Lemma radius_is_rms_witness :
  fit unit_cloud = Returned (mkFit (firstn 3 (solve unit_cloud))
                               (Num (sqrt (radicand (solve unit_cloud)))))
  /\ Rsum (map (sqdist (firstn 3 (solve unit_cloud))) unit_cloud)
     = INR (length unit_cloud)
       * (sqrt (radicand (solve unit_cloud))
          * sqrt (radicand (solve unit_cloud))).
Proof.
  assert (H : fit unit_cloud
              = Returned (mkFit (firstn 3 (solve unit_cloud))
                            (Num (sqrt (radicand (solve unit_cloud)))))).
  { unfold fit, report; rewrite np_sqrt_nonneg; [reflexivity|].
    apply solve_radicand_nonneg. }
  split; [exact H | apply (radius_is_rms unit_cloud _ _ H)].
Defined.

(** X4.  The fitted sphere minimises the algebraic error: no centre and no
    squared radius, of either sign, gives a smaller sum of
    [(|p - c|^2 - rho)^2]. *)
Theorem fit_minimises_algebraic_error (pts : list Point3D) (c : vec) (r : R) :
  fit pts = Returned (mkFit c (Num r)) ->
  forall (c' : Point3D) (rho' : R),
    algebraic_error pts c (r * r) <= algebraic_error pts (np_array c') rho'.
Proof.
  intros H c' rho'; destruct (fit_inv pts c r H) as (k & Es & Lc & Hr & Hsq).
  destruct c as [|x [|y [|z [|]]]]; try discriminate.
  pose proof (proj2 (solve_least_squares pts)
                [px c'; py c'; pz c';
                 px c' * px c' + py c' * py c' + pz c' * pz c' - rho']
                eq_refl) as Hle.
  rewrite Hsq; rewrite Es in *; cbn [app] in *.
  rewrite !ssr_system in Hle.
  replace (radicand [px c'; py c'; pz c'; _]) with rho' in Hle
    by (rewrite radicand_eq; ring).
  exact Hle.
Qed.

Lemma fit_minimises_algebraic_error_witness :
  fit unit_cloud = Returned (mkFit (firstn 3 (solve unit_cloud))
                               (Num (sqrt (radicand (solve unit_cloud)))))
  /\ forall (c' : Point3D) (rho' : R),
       algebraic_error unit_cloud (firstn 3 (solve unit_cloud))
         (sqrt (radicand (solve unit_cloud))
          * sqrt (radicand (solve unit_cloud)))
       <= algebraic_error unit_cloud (np_array c') rho'.
Proof.
  assert (H : fit unit_cloud
              = Returned (mkFit (firstn 3 (solve unit_cloud))
                            (Num (sqrt (radicand (solve unit_cloud)))))).
  { unfold fit, report; rewrite np_sqrt_nonneg; [reflexivity|].
    apply solve_radicand_nonneg. }
  split; [exact H | apply (fit_minimises_algebraic_error unit_cloud _ _ H)].
Defined.

(** ** Clouds with the same minimisers *)
Section SameMinimisers.

(** Two clouds whose objectives differ by a positive factor have the same
    solver result. *)
Lemma same_minimisers (pts pts' : list Point3D) (kappa : R) :
  0 < kappa ->
  (forall v, length v = 4%nat ->
     ssr (system_A pts') (system_b pts') v
     = kappa * ssr (system_A pts) (system_b pts) v) ->
  solve pts' = solve pts.
Proof.
  intros Hk H; symmetry.
  apply lstsq_contract_unique; [apply system_shape|]; split.
  - split; [apply solve_length|]; intros v Lv.
    rewrite !H by (trivial; apply solve_length).
    apply Rmult_le_compat_l; [lra | apply solve_least_squares, Lv].
  - intros v [Lv Hv].
    apply (lstsq_meets_contract 4 (system_A pts) (system_b pts));
      [apply system_shape|].
    split; trivial; intros w Lw; specialize (Hv w Lw).
    rewrite !H in Hv by trivial.
    apply Rmult_le_reg_l with kappa; trivial.
Qed.

Lemma Rsum_perm (l l' : list R) : Permutation l l' -> Rsum l = Rsum l'.
Proof. induction 1; simpl in *; lra. Qed.

End SameMinimisers.

(** X5.  The fit does not depend on the order of the points. *)
Theorem fit_order_independent (pts pts' : list Point3D) :
  Permutation pts pts' -> fit pts' = fit pts.
Proof.
  intros HP; unfold fit; f_equal; f_equal.
  apply (same_minimisers pts pts' 1); [lra|].
  intros v Lv; destruct (vec4_inv v Lv) as (a & b & c & d & ->).
  rewrite !ssr_system, Rmult_1_l; unfold algebraic_error.
  symmetry; apply Rsum_perm, Permutation_map, HP.
Qed.

Lemma fit_order_independent_witness :
  Permutation unit_cloud (rev unit_cloud)
  /\ fit (rev unit_cloud) = fit unit_cloud.
Proof.
  split; [apply Permutation_rev|].
  apply (fit_order_independent unit_cloud (rev unit_cloud)), Permutation_rev.
Defined.

(** ** Scaling the cloud *)
Section Scaling.

Variable s : R.
Hypothesis s_nonzero : s <> 0.

Lemma length_scale_unknowns (a : R) (u : vec) :
  length (scale_unknowns a u) = length u.
Proof. destruct u as [|x [|y [|z [|k [|e u]]]]]; reflexivity. Qed.

Lemma scale_unknowns_back (u : vec) :
  scale_unknowns s (scale_unknowns (/ s) u) = u.
Proof.
  destruct u as [|x [|y [|z [|k [|e u]]]]]; try reflexivity.
  unfold scale_unknowns; vec_eq; field; trivial.
Qed.

Lemma residual_scale (pts : list Point3D) (u : vec) :
  length u = 4%nat ->
  residual (system_A (map (scale_point s) pts))
    (system_b (map (scale_point s) pts)) (scale_unknowns s u)
  = vscale (s * s) (residual (system_A pts) (system_b pts) u).
Proof.
  intros Lu; destruct (vec4_inv u Lu) as (a & b & c & d & ->).
  unfold residual, matvec, vscale.
  rewrite !system_A_eq, !system_b_eq, !map_map, !vsub_map, map_map.
  apply map_ext; intros p.
  unfold spec_row, spec_rhs, scale_point, scale_unknowns;
    cbn [px py pz dot]; ring.
Qed.

Lemma ssr_scale (pts : list Point3D) (u : vec) :
  length u = 4%nat ->
  ssr (system_A (map (scale_point s) pts))
    (system_b (map (scale_point s) pts)) (scale_unknowns s u)
  = (s * s) * (s * s) * ssr (system_A pts) (system_b pts) u.
Proof.
  intros Lu; unfold ssr; rewrite residual_scale by trivial.
  rewrite dot_vscale_l, dot_vscale_r; ring.
Qed.

Lemma least_squares_scale (pts : list Point3D) (u : vec) :
  least_squares 4 (system_A pts) (system_b pts) u ->
  least_squares 4 (system_A (map (scale_point s) pts))
    (system_b (map (scale_point s) pts)) (scale_unknowns s u).
Proof.
  intros [Lu Hu]; split; [rewrite length_scale_unknowns; trivial|].
  intros v Lv.
  rewrite <- (scale_unknowns_back v), !ssr_scale
    by (rewrite ?length_scale_unknowns; trivial).
  apply Rmult_le_compat_l; [nra|].
  apply Hu; rewrite length_scale_unknowns; trivial.
Qed.

Lemma full_rank_scale (pts : list Point3D) :
  full_column_rank 4 (system_A pts) ->
  full_column_rank 4 (system_A (map (scale_point s) pts)).
Proof.
  intros Hrk w Lw Hw.
  destruct (vec4_inv w Lw) as (a & b & c & d & ->).
  assert (E : matvec (system_A (map (scale_point s) pts)) [a; b; c; d]
              = matvec (system_A pts) [s * a; s * b; s * c; d]).
  { unfold matvec; rewrite !system_A_eq, !map_map; apply map_ext; intros p.
    unfold spec_row, scale_point; cbn [px py pz dot]; ring. }
  assert (L : length (system_A (map (scale_point s) pts))
              = length (system_A pts))
    by (rewrite !system_A_eq, !length_map; reflexivity).
  rewrite E, L in Hw; apply Hrk in Hw; [|reflexivity].
  unfold np_zeros in *; cbn [repeat] in *.
  injection Hw as Ha Hb Hc ->.
  apply Rmult_integral in Ha, Hb, Hc.
  destruct Ha, Hb, Hc; try contradiction; subst; reflexivity.
Qed.

Lemma solve_scale (pts : list Point3D) :
  full_column_rank 4 (system_A pts) ->
  solve (map (scale_point s) pts) = scale_unknowns s (solve pts).
Proof.
  intros Hrk; symmetry; apply full_rank_unique.
  - apply system_shape.
  - apply full_rank_scale, Hrk.
  - apply least_squares_scale, solve_least_squares.
Qed.

End Scaling.

(** X6.  For a cloud whose matrix has full column rank, scaling every point
    by [s <> 0] scales the fitted centre by [s] and the fitted radius by
    [|s|]. *)
Theorem fit_scale_equivariant (pts : list Point3D) (s : R) :
  s <> 0 ->
  full_column_rank 4 (system_A pts) ->
  exists c r,
    fit pts = Returned (mkFit c (Num r))
    /\ fit (map (scale_point s) pts)
       = Returned (mkFit (vscale s c) (Num (Rabs s * r))).
Proof.
  intros Hs Hrk; destruct (fit_returns pts) as (r & E & Hr & Hsq).
  exists (firstn 3 (solve pts)), r; split; trivial.
  unfold fit, report; rewrite solve_scale by trivial.
  destruct (vec4_inv _ (solve_length pts)) as (a & b & c & d & Es).
  rewrite Es in *; cbn [scale_unknowns firstn vscale map].
  do 2 f_equal; apply np_sqrt_square.
  - pose proof (Rabs_pos s); nra.
  - rewrite radicand_eq in *.
    replace (Rabs s * r * (Rabs s * r)) with (Rabs s * Rabs s * (r * r))
      by ring.
    replace (Rabs s * Rabs s) with (s * s)
      by (unfold Rabs; destruct (Rcase_abs s); ring).
    rewrite Hsq; ring.
Qed.

Lemma fit_scale_equivariant_witness :
  exists c r,
    fit unit_cloud = Returned (mkFit c (Num r))
    /\ fit (map (scale_point (-2)) unit_cloud)
       = Returned (mkFit (vscale (-2) c) (Num (Rabs (-2) * r))).
Proof.
  apply (fit_scale_equivariant unit_cloud (-2)); [lra | apply unit_full_rank].
Defined.

(** ** Rank and coplanarity *)
Section Coplanarity.

Lemma map_all_zero {X : Type} (f : X -> R) (l : list X) :
  (forall x, In x l -> f x = 0) -> map f l = np_zeros (length l).
Proof.
  unfold np_zeros; induction l as [|x l IH]; intros H; [reflexivity|].
  cbn [map length repeat]; rewrite (H x) by (simpl; auto).
  f_equal; apply IH; intros y Hy; apply H; simpl; auto.
Qed.

Lemma coplanar_rank_deficient (pts : list Point3D) :
  coplanar pts -> rank_deficient 4 (system_A pts).
Proof.
  intros (nx & ny & nz & d & Hn & Hpl).
  exists [nx; ny; nz; 2 * d]; split; [reflexivity|]; split.
  - unfold np_zeros; cbn [repeat]; intros E; injection E as -> -> -> _.
    apply Hn; auto.
  - rewrite system_A_eq; unfold matvec; rewrite map_map, length_map.
    apply map_all_zero; intros p Hp; specialize (Hpl p Hp).
    unfold spec_row; cbn [dot]; lra.
Qed.

Lemma rank_deficient_coplanar (pts : list Point3D) :
  pts <> [] -> rank_deficient 4 (system_A pts) -> coplanar pts.
Proof.
  intros Hne (z & Lz & Hz & Hnull).
  destruct (vec4_inv z Lz) as (a & b & c & d & ->).
  pose proof (matvec_zero_rows _ _ Hnull) as Hrows.
  assert (Hp : forall p, In p pts ->
            -2 * px p * a + (-2 * py p * b + (-2 * pz p * c + (1 * d + 0))) = 0).
  { intros p Hp; apply (Hrows (spec_row p)).
    rewrite system_A_eq; apply in_map, Hp. }
  exists a, b, c, (d / 2); split.
  - intros (-> & -> & ->); apply Hz.
    destruct pts as [|p pts]; [contradiction|].
    specialize (Hp p (or_introl eq_refl)).
    unfold np_zeros; cbn [repeat]; vec_eq.
  - intros p Hin; specialize (Hp p Hin); lra.
Qed.

(** Two vectors of space have a common normal that is not zero. *)
Lemma common_normal (ux uy uz vx vy vz : R) :
  exists mx my mz,
    ~ (mx = 0 /\ my = 0 /\ mz = 0)
    /\ mx * ux + my * uy + mz * uz = 0
    /\ mx * vx + my * vy + mz * vz = 0.
Proof.
  destruct (Req_EM_T (uy * vz - uz * vy) 0) as [H1|H1];
    [destruct (Req_EM_T (uz * vx - ux * vz) 0) as [H2|H2];
     [destruct (Req_EM_T (ux * vy - uy * vx) 0) as [H3|H3]|]|];
    try (exists (uy * vz - uz * vy), (uz * vx - ux * vz), (ux * vy - uy * vx);
         repeat split; [intros (? & ? & ?); contradiction | ring | ring]).
  destruct (Req_EM_T ux 0) as [Ux|Ux];
    [|exists (- uz), 0, ux; repeat split;
      [intros (? & ? & ?); contradiction | ring | lra]].
  destruct (Req_EM_T uy 0) as [Uy|Uy];
    [|exists uy, (- ux), 0; repeat split;
      [intros (? & ? & ?); contradiction | ring | lra]].
  destruct (Req_EM_T uz 0) as [Uz|Uz];
    [|exists 0, uz, (- uy); repeat split;
      [intros (? & ? & ?); contradiction | ring | lra]].
  subst ux uy uz.
  destruct (Req_EM_T vx 0) as [Vx|Vx];
    [|exists (- vz), 0, vx; repeat split;
      [intros (? & ? & ?); contradiction | ring | ring]].
  destruct (Req_EM_T vy 0) as [Vy|Vy];
    [|exists vy, (- vx), 0; repeat split;
      [intros (? & ? & ?); contradiction | ring | ring]].
  destruct (Req_EM_T vz 0) as [Vz|Vz];
    [|exists 0, vz, (- vy); repeat split;
      [intros (? & ? & ?); contradiction | ring | ring]].
  exists 1, 0, 0; repeat split; [intros (? & _); lra | ring | subst; ring].
Qed.

Lemma three_points_coplanar (p1 p2 p3 : Point3D) : coplanar [p1; p2; p3].
Proof.
  destruct (common_normal (px p2 - px p1) (py p2 - py p1) (pz p2 - pz p1)
              (px p3 - px p1) (py p3 - py p1) (pz p3 - pz p1))
    as (mx & my & mz & Hm & H2 & H3).
  exists mx, my, mz, (mx * px p1 + my * py p1 + mz * pz p1); split; trivial.
  intros p [<-|[<-|[<-|[]]]]; lra.
Qed.

Lemma coplanar_incl (l l' : list Point3D) :
  incl l l' -> coplanar l' -> coplanar l.
Proof.
  intros Hi (nx & ny & nz & d & Hn & H); exists nx, ny, nz, d; split; auto.
Qed.

Lemma few_points_coplanar (pts : list Point3D) :
  (length pts < 4)%nat -> coplanar pts.
Proof.
  destruct pts as [|p1 [|p2 [|p3 [|p4 pts]]]]; simpl; intros H; try lia.
  - exists 1, 0, 0, 0; split; [intros (? & _); lra | intros p []].
  - apply (coplanar_incl _ [p1; p1; p1]); [|apply three_points_coplanar].
    intros p [<-|[]]; simpl; auto.
  - apply (coplanar_incl _ [p1; p2; p2]); [|apply three_points_coplanar].
    intros p [<-|[<-|[]]]; simpl; auto.
  - apply three_points_coplanar.
Qed.

End Coplanarity.

(** X7.  For a non-empty cloud the matrix is rank-deficient exactly when the
    points lie in one plane. *)
Theorem rank_deficient_iff_coplanar (pts : list Point3D) :
  pts <> [] -> (rank_deficient 4 (system_A pts) <-> coplanar pts).
Proof.
  intros Hne; split;
    [apply rank_deficient_coplanar, Hne | apply coplanar_rank_deficient].
Qed.

Lemma rank_deficient_iff_coplanar_witness :
  rank_deficient 4 (system_A planar_cloud) <-> coplanar planar_cloud.
Proof.
  apply (rank_deficient_iff_coplanar planar_cloud); discriminate.
Defined.

(** X8.  With fewer than 4 points the matrix is always rank-deficient: it
    never has full column rank, and the least-squares solution is not
    unique. *)
Theorem few_points_rank_deficient (pts : list Point3D) :
  (length pts < 4)%nat ->
  rank_deficient 4 (system_A pts)
  /\ ~ full_column_rank 4 (system_A pts)
  /\ exists v, least_squares 4 (system_A pts) (system_b pts) v
               /\ v <> solve pts.
Proof.
  intros H.
  pose proof (coplanar_rank_deficient pts (few_points_coplanar pts H)) as Hrk.
  split; [exact Hrk|]; split; [apply rank_deficient_not_full, Hrk|].
  destruct (rank_deficient_not_unique 4 (system_A pts) (system_b pts)
              (system_shape pts) Hrk) as (v & Hv & Hne & _).
  exists v; split; trivial.
Qed.

Lemma few_points_rank_deficient_witness :
  (length single_cloud < 4)%nat
  /\ rank_deficient 4 (system_A single_cloud)
  /\ ~ full_column_rank 4 (system_A single_cloud)
  /\ exists v, least_squares 4 (system_A single_cloud)
                 (system_b single_cloud) v
               /\ v <> solve single_cloud.
Proof.
  split; [simpl; lia|].
  apply (few_points_rank_deficient single_cloud); simpl; lia.
Defined.

(** ** The mask of the region of interest *)
Section Mask.

Lemma in_py_range (a b x : Z) : In x (py_range a b) <-> (a <= x < b)%Z.
Proof.
  unfold py_range; rewrite in_map_iff; split.
  - intros (i & <- & Hi); apply in_seq in Hi; lia.
  - intros H; exists (Z.to_nat (x - a)); split; [lia | apply in_seq; lia].
Qed.

Variable size : Z * Z * Z.

(** A write keeps the size of the image. *)
Lemma set_pixel_size (m m' : Image) (x y z v : Z) :
  set_pixel m x y z v = Some m' -> img_size m' = img_size m.
Proof.
  unfold set_pixel; destruct (img_size m) as [[sx sy] sz].
  destruct (inside _ _ _ _); [|discriminate].
  intros E; injection E as <-; reflexivity.
Qed.

Lemma wrap_index_nonneg (s i : Z) : (0 <= i)%Z -> wrap_index s i = i.
Proof. unfold wrap_index; destruct (Z.ltb_spec i 0); [lia | reflexivity]. Qed.

Lemma inside_nonneg (m : Image) (x y z : Z) :
  inside m x y z = true -> (0 <= x /\ 0 <= y /\ 0 <= z)%Z.
Proof.
  unfold inside; destruct (img_size m) as [[sx sy] sz].
  rewrite !andb_true_iff, !Z.leb_le; tauto.
Qed.

(** A write at non-negative indices goes to the voxel of those indices, or
    raises when it is none of the image. *)
Lemma set_pixel_nonneg (m : Image) (x y z v : Z) :
  (0 <= x)%Z -> (0 <= y)%Z -> (0 <= z)%Z ->
  set_pixel m x y z v
  = if inside m x y z
    then Some (mkImage (img_size m)
                 (fun x' y' z' =>
                    if (Z.eqb x' x && Z.eqb y' y && Z.eqb z' z)%bool then v
                    else voxel m x' y' z'))
    else None.
Proof.
  intros Hx Hy Hz; unfold set_pixel.
  destruct (img_size m) as [[sx sy] sz] eqn:E.
  rewrite !wrap_index_nonneg by trivial; reflexivity.
Qed.

Lemma for_each_size {X : Type} (l : list X) (body : X -> Image -> option Image) :
  (forall x m m', body x m = Some m' -> img_size m = size ->
                  img_size m' = size) ->
  forall m m', for_each l body m = Some m' -> img_size m = size ->
               img_size m' = size.
Proof.
  intros Hb; induction l as [|x l IH]; intros m m' E Hm; cbn [for_each] in E.
  - injection E as <-; exact Hm.
  - destruct (body x m) as [m1|] eqn:E1; [|discriminate].
    apply (IH m1 m' E), (Hb x m m1 E1 Hm).
Qed.

(** A loop whose iterations each paint the voxels they hit paints the
    voxels that some iteration hits. *)
Lemma for_each_paint {X : Type} (v : Z) (l : list X)
      (body : X -> Image -> option Image) (hit : X -> Z -> Z -> Z -> bool) :
  (forall x m, In x l -> img_size m = size ->
     exists m', body x m = Some m' /\ img_size m' = size
                /\ forall a b c, voxel m' a b c
                                 = if hit x a b c then v else voxel m a b c) ->
  forall m, img_size m = size ->
    exists m', for_each l body m = Some m' /\ img_size m' = size
               /\ forall a b c,
                    voxel m' a b c
                    = if existsb (fun x => hit x a b c) l then v
                      else voxel m a b c.
Proof.
  induction l as [|x l IH]; intros H m Hm.
  - exists m; repeat split; trivial.
  - destruct (H x m (or_introl eq_refl) Hm) as (m1 & E1 & S1 & V1).
    destruct (IH (fun y m0 Hy => H y m0 (or_intror Hy)) m1 S1)
      as (m2 & E2 & S2 & V2).
    exists m2; cbn [for_each existsb]; rewrite E1; repeat split; trivial.
    intros a b c; rewrite V2, V1.
    destruct (hit x a b c), (existsb (fun x0 => hit x0 a b c) l); reflexivity.
Qed.

(** A loop with an iteration that always raises raises. *)
Lemma for_each_fails {X : Type} (l : list X)
      (body : X -> Image -> option Image) (x : X) :
  In x l ->
  (forall y m m', body y m = Some m' -> img_size m = size ->
                  img_size m' = size) ->
  (forall m, img_size m = size -> body x m = None) ->
  forall m, img_size m = size -> for_each l body m = None.
Proof.
  intros Hx Hs Hf; induction l as [|y l IH]; [destruct Hx|].
  intros m Hm; cbn [for_each].
  destruct (body y m) as [m1|] eqn:E1; [|reflexivity].
  destruct Hx as [->|Hx].
  - rewrite (Hf m Hm) in E1; discriminate.
  - apply (IH Hx), (Hs y m m1 E1 Hm).
Qed.

Lemma inside_size (m : Image) (x y z : Z) :
  img_size m = size -> inside m x y z = inside (new_image size) x y z.
Proof. intros H; unfold inside; rewrite H; reflexivity. Qed.

Variable roi : ROI.

(** The voxels of the box of the region, as the three loops visit them. *)
Lemma loops_visit_roi (a b c : Z) :
  let '((x0, x1), (y0, y1), (z0, z1)) := roi in
  existsb (fun x =>
    existsb (fun y =>
      existsb (fun z => Z.eqb a x && Z.eqb b y && Z.eqb c z)
        (py_range z0 (z1 + 1)))
      (py_range y0 (y1 + 1)))
    (py_range x0 (x1 + 1))
  = in_roi roi a b c.
Proof.
  destruct roi as [[[x0 x1] [y0 y1]] [z0 z1]]; unfold in_roi.
  apply eq_iff_eq_true; rewrite existsb_exists, !andb_true_iff, !Z.leb_le.
  split.
  - intros (x & Hx & H); apply existsb_exists in H as (y & Hy & H).
    apply existsb_exists in H as (z & Hz & H).
    rewrite !andb_true_iff, !Z.eqb_eq in H.
    apply in_py_range in Hx, Hy, Hz; lia.
  - intros H; exists a; split; [apply in_py_range; lia|].
    apply existsb_exists; exists b; split; [apply in_py_range; lia|].
    apply existsb_exists; exists c; split; [apply in_py_range; lia|].
    rewrite !Z.eqb_refl; reflexivity.
Qed.

(** When every voxel of the box is one of the image, the loops end and the
    mask holds [mask_value] on the box and 0 elsewhere. *)
Lemma mask_paint :
  (forall x y z, in_roi roi x y z = true ->
                 inside (new_image size) x y z = true) ->
  exists m, build_mask size roi = Some m /\ img_size m = size
            /\ forall x y z, voxel m x y z
                             = if in_roi roi x y z then mask_value else 0%Z.
Proof.
  intros Hin; pose proof loops_visit_roi as Hv.
  unfold build_mask; destruct roi as [[[x0 x1] [y0 y1]] [z0 z1]].
  assert (Hbox : forall x y z,
            In x (py_range x0 (x1 + 1)) -> In y (py_range y0 (y1 + 1)) ->
            In z (py_range z0 (z1 + 1)) ->
            inside (new_image size) x y z = true).
  { intros x y z Hx Hy Hz; apply in_py_range in Hx, Hy, Hz.
    apply Hin; unfold in_roi; rewrite !andb_true_iff, !Z.leb_le; lia. }
  assert (Lz : forall x y, In x (py_range x0 (x1 + 1)) ->
            In y (py_range y0 (y1 + 1)) ->
            forall m, img_size m = size ->
            exists m',
              for_each (py_range z0 (z1 + 1))
                (fun z m => set_pixel m x y z mask_value) m = Some m'
              /\ img_size m' = size
              /\ forall a b c,
                   voxel m' a b c
                   = if existsb (fun z => Z.eqb a x && Z.eqb b y && Z.eqb c z)
                          (py_range z0 (z1 + 1))
                     then mask_value else voxel m a b c).
  { intros x y Hx Hy; apply for_each_paint.
    intros z m2 Hz Hm2; pose proof (Hbox x y z Hx Hy Hz) as Hi.
    destruct (inside_nonneg _ _ _ _ Hi) as (Nx & Ny & Nz).
    rewrite set_pixel_nonneg, (inside_size m2 x y z Hm2), Hi by trivial.
    eexists; repeat split; trivial. }
  assert (Ly : forall x, In x (py_range x0 (x1 + 1)) ->
            forall m, img_size m = size ->
            exists m',
              for_each (py_range y0 (y1 + 1))
                (fun y m =>
                   for_each (py_range z0 (z1 + 1))
                     (fun z m => set_pixel m x y z mask_value) m) m = Some m'
              /\ img_size m' = size
              /\ forall a b c,
                   voxel m' a b c
                   = if existsb (fun y =>
                          existsb
                            (fun z => Z.eqb a x && Z.eqb b y && Z.eqb c z)
                            (py_range z0 (z1 + 1)))
                          (py_range y0 (y1 + 1))
                     then mask_value else voxel m a b c).
  { intros x Hx;
      apply (for_each_paint mask_value (py_range y0 (y1 + 1))
               (fun y m =>
                  for_each (py_range z0 (z1 + 1))
                    (fun z m => set_pixel m x y z mask_value) m)
               (fun y a b c =>
                  existsb (fun z => Z.eqb a x && Z.eqb b y && Z.eqb c z)
                    (py_range z0 (z1 + 1)))).
    intros y m1 Hy Hm1; apply (Lz x y Hx Hy m1 Hm1). }
  destruct (for_each_paint mask_value (py_range x0 (x1 + 1))
              (fun x m =>
                 for_each (py_range y0 (y1 + 1))
                   (fun y m =>
                      for_each (py_range z0 (z1 + 1))
                        (fun z m => set_pixel m x y z mask_value) m) m)
              (fun x a b c =>
                 existsb (fun y =>
                   existsb (fun z => Z.eqb a x && Z.eqb b y && Z.eqb c z)
                     (py_range z0 (z1 + 1)))
                   (py_range y0 (y1 + 1)))
              (fun x m Hx Hm => Ly x Hx m Hm) (new_image size) eq_refl)
    as (m & E & S & V).
  exists m; split; [exact E|]; split; [exact S|].
  intros x y z; rewrite V, Hv; reflexivity.
Qed.

End Mask.

(** When a voxel of the box, of non-negative indices, is not one of the
    image, a write raises and the loops do not end. *)
Lemma mask_raises (size : Z * Z * Z) (roi : ROI) (x y z : Z) :
  (0 <= x)%Z -> (0 <= y)%Z -> (0 <= z)%Z ->
  in_roi roi x y z = true -> inside (new_image size) x y z = false ->
  build_mask size roi = None.
Proof.
  destruct roi as [[[x0 x1] [y0 y1]] [z0 z1]]; unfold in_roi, build_mask.
  rewrite !andb_true_iff, !Z.leb_le; intros Nx Ny Nz Hr Hout.
  assert (Sz : forall x' y' z' m m',
            set_pixel m x' y' z' mask_value = Some m' ->
            img_size m = size -> img_size m' = size)
    by (intros x' y' z' m m' E Hm; rewrite (set_pixel_size _ _ _ _ _ _ E);
        exact Hm).
  assert (Sy : forall x' y' m m',
            for_each (py_range z0 (z1 + 1))
              (fun z m => set_pixel m x' y' z mask_value) m = Some m' ->
            img_size m = size -> img_size m' = size)
    by (intros x' y' m m'; apply for_each_size; intros z'; apply Sz).
  apply (for_each_fails size _ _ x); trivial.
  - apply in_py_range; lia.
  - intros x' m m'; apply for_each_size; intros y'; apply Sy.
  - intros m Hm; apply (for_each_fails size _ _ y); trivial.
    + apply in_py_range; lia.
    + intros y'; apply Sy.
    + intros m1 Hm1; apply (for_each_fails size _ _ z); trivial.
      * apply in_py_range; lia.
      * intros z'; apply Sz.
      * intros m2 Hm2.
        rewrite set_pixel_nonneg, (inside_size size m2 x y z Hm2), Hout
          by trivial; reflexivity.
Qed.

(** X9.  When the region lies inside the image, the three loops end and
    the mask is 255 exactly on the closed box of the region, both ends of
    each range included, and 0 on every other voxel. *)
Theorem mask_is_roi_box (sx sy sz x0 x1 y0 y1 z0 z1 : Z) :
  (0 <= x0)%Z -> (x1 < sx)%Z -> (0 <= y0)%Z -> (y1 < sy)%Z ->
  (0 <= z0)%Z -> (z1 < sz)%Z ->
  exists m,
    build_mask (sx, sy, sz) ((x0, x1), (y0, y1), (z0, z1)) = Some m
    /\ img_size m = (sx, sy, sz)
    /\ forall x y z,
         voxel m x y z
         = if in_roi ((x0, x1), (y0, y1), (z0, z1)) x y z then 255%Z
           else 0%Z.
Proof.
  intros; apply mask_paint; intros x y z.
  unfold in_roi, inside, new_image; cbn [img_size].
  rewrite !andb_true_iff, !Z.leb_le, !Z.ltb_lt; lia.
Qed.

Lemma mask_is_roi_box_witness :
  exists m,
    build_mask (512, 512, 64)%Z ((280, 320), (65, 90), (8, 30))%Z = Some m
    /\ img_size m = (512, 512, 64)%Z
    /\ forall x y z,
         voxel m x y z
         = if in_roi ((280, 320), (65, 90), (8, 30))%Z x y z then 255%Z
           else 0%Z.
Proof.
  apply (mask_is_roi_box 512 512 64 280 320 65 90 8 30); lia.
Defined.

(** X10.  When the box of the region is not empty, starts at non-negative
    indices and reaches past the image on some axis, a write is rejected
    and the cell raises: no mask is built. *)
Theorem mask_out_of_bounds (sx sy sz x0 x1 y0 y1 z0 z1 : Z) :
  (0 <= x0 <= x1)%Z -> (0 <= y0 <= y1)%Z -> (0 <= z0 <= z1)%Z ->
  (sx <= x1 \/ sy <= y1 \/ sz <= z1)%Z ->
  build_mask (sx, sy, sz) ((x0, x1), (y0, y1), (z0, z1)) = None.
Proof.
  intros Hx Hy Hz Hout; apply (mask_raises _ _ x1 y1 z1); try lia.
  - unfold in_roi; rewrite !andb_true_iff, !Z.leb_le; lia.
  - unfold inside, new_image; cbn [img_size].
    apply not_true_is_false; rewrite !andb_true_iff, !Z.leb_le, !Z.ltb_lt.
    lia.
Qed.

Lemma mask_out_of_bounds_witness :
  build_mask (300, 512, 64)%Z ((280, 320), (65, 90), (8, 30))%Z = None.
Proof.
  apply (mask_out_of_bounds 300 512 64 280 320 65 90 8 30); lia.
Defined.

(** X11.  When a range of the region is empty (its maximum is below its
    minimum), no voxel is written: the loops end, whatever the other
    bounds are, and the mask is 0 everywhere. *)
Theorem mask_empty_roi (size : Z * Z * Z) (x0 x1 y0 y1 z0 z1 : Z) :
  (x1 < x0 \/ y1 < y0 \/ z1 < z0)%Z ->
  exists m,
    build_mask size ((x0, x1), (y0, y1), (z0, z1)) = Some m
    /\ forall x y z, voxel m x y z = 0%Z.
Proof.
  intros He.
  assert (Hno : forall x y z,
            in_roi ((x0, x1), (y0, y1), (z0, z1)) x y z = false).
  { intros x y z; unfold in_roi; apply not_true_is_false.
    rewrite !andb_true_iff, !Z.leb_le; lia. }
  destruct (mask_paint size ((x0, x1), (y0, y1), (z0, z1)))
    as (m & E & _ & V).
  - intros x y z H; rewrite Hno in H; discriminate.
  - exists m; split; [exact E|]; intros x y z; rewrite V, Hno; reflexivity.
Qed.

Lemma mask_empty_roi_witness :
  exists m,
    build_mask (512, 512, 64)%Z ((280, 320), (90, 65), (8, 30000))%Z = Some m
    /\ forall x y z, voxel m x y z = 0%Z.
Proof.
  apply (mask_empty_roi (512, 512, 64)%Z 280 320 90 65 8 30000); lia.
Defined.

(** ** The intensities of the region of interest *)
Section Slices.

Context {X : Type}.

Lemma py_slice_eq (a b : Z) (l : list X) :
  (0 <= a <= b)%Z -> (b <= Z.of_nat (length l))%Z ->
  py_slice a b l = firstn (Z.to_nat (b - a)) (skipn (Z.to_nat a) l).
Proof.
  intros Ha Hb; unfold py_slice, py_index.
  destruct (Z.ltb_spec a 0), (Z.ltb_spec b 0); try lia.
  rewrite !Z.min_l by lia; reflexivity.
Qed.

Lemma length_py_slice (a b : Z) (l : list X) :
  (0 <= a <= b)%Z -> (b <= Z.of_nat (length l))%Z ->
  length (py_slice a b l) = Z.to_nat (b - a).
Proof.
  intros Ha Hb; rewrite py_slice_eq, length_firstn, length_skipn by trivial.
  lia.
Qed.

(** The entries of [l[a:b]] are the entries of [l] at the positions
    [a], ..., [b - 1]. *)
Lemma in_py_slice (a b : Z) (l : list X) (v : X) :
  (0 <= a <= b)%Z -> (b <= Z.of_nat (length l))%Z ->
  In v (py_slice a b l)
  <-> exists i, (a <= i < b)%Z /\ nth_error l (Z.to_nat i) = Some v.
Proof.
  intros Ha Hb; rewrite py_slice_eq by trivial; split.
  - intros H; apply In_nth_error in H as (j & Hj).
    rewrite nth_error_firstn in Hj.
    destruct (Nat.ltb_spec j (Z.to_nat (b - a))); [|discriminate].
    rewrite nth_error_skipn in Hj.
    exists (a + Z.of_nat j)%Z; split; [lia|].
    replace (Z.to_nat (a + Z.of_nat j)) with (Z.to_nat a + j)%nat by lia.
    exact Hj.
  - intros (i & Hi & E); apply (nth_error_In _ (Z.to_nat (i - a))).
    rewrite nth_error_firstn.
    destruct (Nat.ltb_spec (Z.to_nat (i - a)) (Z.to_nat (b - a))); [|lia].
    rewrite nth_error_skipn.
    replace (Z.to_nat a + Z.to_nat (i - a))%nat with (Z.to_nat i) by lia.
    exact E.
Qed.

Lemma incl_py_slice (a b : Z) (l : list X) : incl (py_slice a b l) l.
Proof.
  unfold py_slice; intros v H.
  set (n := Z.to_nat _) in H; set (k := Z.to_nat _) in H.
  rewrite <- (firstn_skipn k l); apply in_or_app; right.
  rewrite <- (firstn_skipn n (skipn k l)); apply in_or_app; left; exact H.
Qed.

Lemma length_concat_uniform (n : nat) (l : list (list X)) :
  Forall (fun r => length r = n) l -> length (concat l) = (length l * n)%nat.
Proof.
  induction 1 as [|r l Hr _ IH]; [reflexivity|].
  cbn [concat length]; rewrite length_app, IH, Hr; lia.
Qed.

End Slices.

(** X12.  For a region inside an array of shape [(sz, sy, sx)], the
    histogram sample has [(z1 - z0) (y1 - y0) (x1 - x0)] intensities: each
    slice stops before the maximum of its range. *)
Theorem roi_values_length (arr : list (list (list Z))) (sz sy sx : nat)
        (x0 x1 y0 y1 z0 z1 : Z) :
  has_shape3 sz sy sx arr ->
  (0 <= x0 <= x1)%Z -> (x1 <= Z.of_nat sx)%Z ->
  (0 <= y0 <= y1)%Z -> (y1 <= Z.of_nat sy)%Z ->
  (0 <= z0 <= z1)%Z -> (z1 <= Z.of_nat sz)%Z ->
  Z.of_nat (length (roi_values arr ((x0, x1), (y0, y1), (z0, z1))))
  = ((z1 - z0) * (y1 - y0) * (x1 - x0))%Z.
Proof.
  intros [Larr Hsh] Hx0 Hx1 Hy0 Hy1 Hz0 Hz1; unfold roi_values.
  rewrite Forall_forall in Hsh.
  assert (Hpl : forall plane, In plane (py_slice z0 z1 arr) ->
            length plane = sy
            /\ forall row, In row plane -> length row = sx).
  { intros plane Hp; apply incl_py_slice, Hsh in Hp as [L F].
    rewrite Forall_forall in F; auto. }
  rewrite (length_concat_uniform (Z.to_nat (x1 - x0))).
  - rewrite (length_concat_uniform (Z.to_nat (y1 - y0))).
    + rewrite length_map, length_py_slice by lia.
      rewrite !Nat2Z.inj_mul, !Z2Nat.id by lia; reflexivity.
    + apply Forall_forall; intros rows Hr.
      apply in_map_iff in Hr as (plane & <- & Hp).
      destruct (Hpl plane Hp) as [L _].
      rewrite length_map, length_py_slice by lia; reflexivity.
  - apply Forall_concat, Forall_forall; intros rows Hr.
    apply in_map_iff in Hr as (plane & <- & Hp).
    destruct (Hpl plane Hp) as [L F].
    apply Forall_forall; intros row' Hr'.
    apply in_map_iff in Hr' as (row & <- & Hrow).
    apply incl_py_slice, F in Hrow.
    rewrite length_py_slice by lia; reflexivity.
Qed.

Lemma roi_values_length_witness :
  Z.of_nat (length (roi_values [[[1; 2; 3]; [4; 5; 6]]; [[7; 8; 9]; [10; 11; 12]]]%Z
                      ((1, 3), (0, 1), (0, 2))%Z))
  = ((2 - 0) * (1 - 0) * (3 - 1))%Z.
Proof.
  apply (roi_values_length _ 2 2 3); try lia.
  split; [reflexivity|]; repeat constructor.
Defined.

(** X13.  For a region inside the array, the histogram sample holds exactly
    the intensities [arr[z][y][x]] with [x0 <= x < x1], [y0 <= y < y1] and
    [z0 <= z < z1]: the voxels at the maxima, which the mask includes, are
    left out. *)
Theorem roi_values_half_open (arr : list (list (list Z))) (sz sy sx : nat)
        (x0 x1 y0 y1 z0 z1 : Z) (v : Z) :
  has_shape3 sz sy sx arr ->
  (0 <= x0 <= x1)%Z -> (x1 <= Z.of_nat sx)%Z ->
  (0 <= y0 <= y1)%Z -> (y1 <= Z.of_nat sy)%Z ->
  (0 <= z0 <= z1)%Z -> (z1 <= Z.of_nat sz)%Z ->
  In v (roi_values arr ((x0, x1), (y0, y1), (z0, z1)))
  <-> exists x y z plane row,
        (x0 <= x < x1)%Z /\ (y0 <= y < y1)%Z /\ (z0 <= z < z1)%Z
        /\ nth_error arr (Z.to_nat z) = Some plane
        /\ nth_error plane (Z.to_nat y) = Some row
        /\ nth_error row (Z.to_nat x) = Some v.
Proof.
  intros [Larr Hsh] Hx0 Hx1 Hy0 Hy1 Hz0 Hz1; unfold roi_values.
  rewrite Forall_forall in Hsh.
  assert (Hpl : forall plane, In plane arr ->
            length plane = sy
            /\ forall row, In row plane -> length row = sx).
  { intros plane Hp; apply Hsh in Hp as [L F].
    rewrite Forall_forall in F; auto. }
  split.
  - intros H; apply in_concat in H as (row' & Hrows & Hv).
    apply in_concat in Hrows as (rows & Hr & Hrow').
    apply in_map_iff in Hr as (plane & <- & Hp).
    apply in_map_iff in Hrow' as (row & <- & Hrow).
    apply in_py_slice in Hp as (z & Hz & Ez); [|lia..].
    destruct (Hpl plane (nth_error_In _ _ Ez)) as [L F].
    apply in_py_slice in Hrow as (y & Hy & Ey); [|lia..].
    pose proof (F row (nth_error_In _ _ Ey)) as Lr.
    apply in_py_slice in Hv as (x & Hx & Ex); [|lia..].
    exists x, y, z, plane, row; auto 10.
  - intros (x & y & z & plane & row & Hx & Hy & Hz & Ez & Ey & Ex).
    destruct (Hpl plane (nth_error_In _ _ Ez)) as [L F].
    pose proof (F row (nth_error_In _ _ Ey)) as Lr.
    apply in_concat; exists (py_slice x0 x1 row); split.
    + apply in_concat.
      exists (map (py_slice x0 x1) (py_slice y0 y1 plane)); split.
      * apply in_map_iff; exists plane; split; [reflexivity|].
        apply in_py_slice; [lia..|]; exists z; auto.
      * apply in_map, in_py_slice; [lia..|]; exists y; auto.
    + apply in_py_slice; [lia..|]; exists x; auto.
Qed.

Lemma roi_values_half_open_witness :
  In 2%Z (roi_values [[[1; 2; 3]; [4; 5; 6]]; [[7; 8; 9]; [10; 11; 12]]]%Z
            ((1, 3), (0, 1), (0, 2))%Z)
  <-> exists x y z plane row,
        (1 <= x < 3)%Z /\ (0 <= y < 1)%Z /\ (0 <= z < 2)%Z
        /\ nth_error [[[1; 2; 3]; [4; 5; 6]]; [[7; 8; 9]; [10; 11; 12]]]%Z
             (Z.to_nat z) = Some plane
        /\ nth_error plane (Z.to_nat y) = Some row
        /\ nth_error row (Z.to_nat x) = Some 2%Z.
Proof.
  apply (roi_values_half_open _ 2 2 3); try lia.
  split; [reflexivity|]; repeat constructor.
Defined.
